(** * Job_Search.py: a shallow embedding and its verified properties

    The program collects job postings, asks a generative-text provider for
    the minimum experience of each posting, and stores the postings that
    need at most one year.  This file embeds the functions of
    [Job_Search.py] and proves properties of them.

    Python values are modelled as follows.
    - A [str] is a [list ascii]; each [ascii] is one code point in the range
      U+0000..U+00FF, classified as CPython classifies that code point.
    - An [int] is a [Z] (Python integers are unbounded).
    - An exception is a value of [exn]; a computation that may raise
      returns a [result].
    - The external services (job-search provider, generative-text provider,
      relational store) and the standard output are components of a
      [World] that is threaded through the effectful functions. *)

From Stdlib Require Import Ascii String List ZArith NArith Bool Arith Lia.
Import ListNotations.

Set Warnings "-register-all".

(** ** Exceptions and results *)

Inductive exn : Type :=
| KeyError (key : string)        (* dict lookup of an absent key *)
| TypeError                      (* subscript of a value that has none *)
| AttributeError                 (* [.split] on a value that is not a str *)
| ValueError                     (* [int] of a malformed numeral *)
| MysqlError                     (* mysql.connector.Error and subclasses *)
| ProviderError (name : string)  (* any other Exception of a provider *)
| Interrupt.                     (* a BaseException that is no Exception *)

Inductive result (A : Type) : Type :=
| Ok (a : A)
| Raise (e : exn).

Arguments Ok {A} a.
Arguments Raise {A} e.

(** [except Exception], [except ValueError], [except Error] *)
Definition is_Exception (e : exn) : bool :=
  match e with Interrupt => false | _ => true end.

Definition is_ValueError (e : exn) : bool :=
  match e with ValueError => true | _ => false end.

Definition is_mysql_Error (e : exn) : bool :=
  match e with MysqlError => true | _ => false end.

(** ** Text *)

Definition text := list ascii.

Definition lit (s : string) : text := list_ascii_of_string s.

Definition code (c : ascii) : N := N_of_ascii c.

Definition between (lo hi : N) (c : ascii) : bool :=
  ((lo <=? code c) && (code c <=? hi))%N.

(** [\d] of [re] on str patterns: the decimal digits (category Nd). *)
Definition is_digit (c : ascii) : bool := between 48 57 c.

(** [str.isalnum] on one code point below U+0100. *)
Definition is_alnum (c : ascii) : bool :=
  between 48 57 c || between 65 90 c || between 97 122 c
  || between 170 170 c || between 178 179 c || between 181 181 c
  || between 185 186 c || between 188 190 c
  || between 192 214 c || between 216 246 c || between 248 255 c.

(** [\w] of [re]: alphanumeric or underscore. *)
Definition is_word (c : ascii) : bool := is_alnum c || between 95 95 c.

(** [\s] of [re], and the characters [str.strip()] removes. *)
Definition is_space (c : ascii) : bool :=
  between 9 13 c || between 28 32 c || between 133 133 c || between 160 160 c.

(** The characters [int] skips around a numeral. *)
Definition is_int_space (c : ascii) : bool :=
  between 9 13 c || between 32 32 c || between 133 133 c || between 160 160 c.

Definition char_eqb (a b : ascii) : bool := Ascii.eqb a b.

Fixpoint drop_while (p : ascii -> bool) (s : text) : text :=
  match s with
  | c :: s' => if p c then drop_while p s' else s
  | [] => []
  end.

Fixpoint take_while (p : ascii -> bool) (s : text) : text :=
  match s with
  | c :: s' => if p c then c :: take_while p s' else []
  | [] => []
  end.

(** [s.strip()] *)
Definition strip (s : text) : text :=
  rev (drop_while is_space (rev (drop_while is_space s))).

(** [ch in s] for a one-character [ch] *)
Definition contains (ch : ascii) (s : text) : bool := existsb (char_eqb ch) s.

(** [s.split(ch)[0]]: the part of [s] before the first [ch] *)
Definition split_head (ch : ascii) (s : text) : text :=
  take_while (fun c => negb (char_eqb ch c)) s.

(** [s.split(ch)[-1]]: the part of [s] after the last [ch] *)
Fixpoint split_last (ch : ascii) (s : text) : text :=
  match s with
  | [] => []
  | c :: s' =>
      if contains ch s then split_last ch s' else s
  end.

(** [s.replace(ch, '')] *)
Definition remove_char (ch : ascii) (s : text) : text :=
  filter (fun c => negb (char_eqb ch c)) s.

(** ** [int(s)] on a str

    [max_str_digits] is the interpreter's limit on the number of digits
    of a numeral that [int] converts ([sys.get_int_max_str_digits()],
    4300 unless configured, 0 when disabled); numerals of at most 640
    digits are never refused. *)

Definition default_max_str_digits : nat := 4300.

Definition exceeds_limit (max_str_digits digits : nat) : bool :=
  (0 <? max_str_digits) && (640 <? digits) && (max_str_digits <? digits).

Definition digit_value (c : ascii) : Z := Z.of_N (code c) - 48.

(** The scan of the numeral's body: digits with single underscores
    between them.  Returns the number of digits, the value, whether the
    last character read was an underscore, and the unread rest; [None]
    on a doubled underscore. *)
Fixpoint scan_digits (prev_us : bool) (count : nat) (acc : Z) (s : text)
  : option (nat * Z * bool * text) :=
  match s with
  | c :: s' =>
      if is_digit c then
        scan_digits false (S count) (10 * acc + digit_value c) s'
      else if char_eqb "_" c then
        if prev_us then None else scan_digits true count acc s'
      else Some (count, acc, prev_us, s)
  | [] => Some (count, acc, prev_us, s)
  end.

(** The optional sign of a numeral: whether it is "-", and the rest. *)
Definition sign_of (s : text) : bool * text :=
  match s with
  | c :: t =>
      if char_eqb "+" c then (false, t)
      else if char_eqb "-" c then (true, t)
      else (false, s)
  | [] => (false, s)
  end.

Definition py_int (max_str_digits : nat) (s : text) : result Z :=
  let '(negative, s2) := sign_of (drop_while is_int_space s) in
  match s2 with
  | c :: _ =>
      if is_digit c then
        match scan_digits false 0 0 s2 with
        | Some (count, v, last_us, rest) =>
            if last_us then Raise ValueError
            else if exceeds_limit max_str_digits count then Raise ValueError
            else if forallb is_int_space rest
                 then Ok (if negative then (- v)%Z else v)
                 else Raise ValueError
        | None => Raise ValueError
        end
      else Raise ValueError
  | [] => Raise ValueError
  end.

(** ** Regular expressions: the fragment of [re] the program uses

    Backtracking matching in continuation-passing style: alternatives are
    tried left to right and repetitions are greedy, as in [re]. *)

Inductive regex : Type :=
| Boundary                      (* \b *)
| Class (p : ascii -> bool)     (* one character of a class; a literal *)
| Star (p : ascii -> bool)      (* p*  *)
| Plus (p : ascii -> bool)      (* p+  *)
| Opt (p : ascii -> bool)       (* p?  *)
| Cat (r1 r2 : regex)
| Alt (r1 r2 : regex).

(** A continuation receives the character before the current position
    (if any) and the unread rest, and returns the rest after the whole
    match. *)
Definition cont := option ascii -> text -> option text.

Definition word_before (prev : option ascii) : bool :=
  match prev with Some c => is_word c | None => false end.

Definition word_at (s : text) : bool :=
  match s with c :: _ => is_word c | [] => false end.

(** [\b]: exactly one side of the position is a word character. *)
Definition at_boundary (prev : option ascii) (s : text) : bool :=
  xorb (word_before prev) (word_at s).

Fixpoint many (p : ascii -> bool) (k : cont) (prev : option ascii) (s : text)
  : option text :=
  match s with
  | c :: s' =>
      if p c then
        match many p k (Some c) s' with
        | Some r => Some r
        | None => k prev s
        end
      else k prev s
  | [] => k prev s
  end.

Fixpoint exec (r : regex) (k : cont) (prev : option ascii) (s : text)
  : option text :=
  match r with
  | Boundary => if at_boundary prev s then k prev s else None
  | Class p =>
      match s with
      | c :: s' => if p c then k (Some c) s' else None
      | [] => None
      end
  | Star p => many p k prev s
  | Plus p =>
      match s with
      | c :: s' => if p c then many p k (Some c) s' else None
      | [] => None
      end
  | Opt p =>
      match s with
      | c :: s' =>
          if p c then
            match k (Some c) s' with
            | Some r => Some r
            | None => k prev s
            end
          else k prev s
      | [] => k prev s
      end
  | Cat r1 r2 => exec r1 (exec r2 k) prev s
  | Alt r1 r2 =>
      match exec r1 k prev s with
      | Some r => Some r
      | None => exec r2 k prev s
      end
  end.

(** The match of [r] that starts at the current position, if any: the
    unread rest after it. *)
Definition match_at (r : regex) (prev : option ascii) (s : text) : option text :=
  exec r (fun _ rest => Some rest) prev s.

(** [re.findall(r, s)] for a pattern without groups: the non-overlapping
    matches, scanning left to right.  [skip] counts the characters of the
    last match still to be passed over.  (An empty match moves the scan on
    by one character; the pattern of this program has none.) *)
Fixpoint scan (r : regex) (skip : nat) (prev : option ascii) (s : text)
  : list text :=
  match skip with
  | S n =>
      match s with
      | c :: s' => scan r n (Some c) s'
      | [] => []
      end
  | O =>
      match match_at r prev s with
      | Some rest =>
          let n := length s - length rest in
          firstn n s ::
            match s with
            | c :: s' => scan r (pred n) (Some c) s'
            | [] => []
            end
      | None =>
          match s with
          | c :: s' => scan r 0 (Some c) s'
          | [] => []
          end
      end
  end.

Definition findall (r : regex) (s : text) : list text := scan r 0 None s.

(** ** [filter_numbers] *)

Definition is_char (ch : ascii) : ascii -> bool := char_eqb ch.

(** The two alternatives of the pattern: [\b\d+\+?] and
    [\b\d+\s*-\s*\d+\b]. *)
Definition bare_integer : regex :=
  Cat Boundary (Cat (Plus is_digit) (Opt (is_char "+"))).

Definition integer_range : regex :=
  Cat Boundary
    (Cat (Plus is_digit)
      (Cat (Star is_space)
        (Cat (Class (is_char "-"))
          (Cat (Star is_space)
            (Cat (Plus is_digit) Boundary))))).

(** r'\b\d+\+?|\b\d+\s*-\s*\d+\b' *)
Definition experience_pattern : regex := Alt bare_integer integer_range.

Definition filter_numbers (max_str_digits : nat) (t : text) : result Z :=
  let pattern := findall experience_pattern t in
  match pattern with
  | [] => Ok 0%Z
  | m :: _ =>
      py_int max_str_digits
        (if contains "-" m
         then strip (split_head "-" m)
         else strip (remove_char "+" m))
  end.

(** ** [estimate_experience]: the reading of the provider's answer *)

(** [try: body except <catches>: handler] on a pure computation *)
Definition try_except {A : Type} (body : result A) (catches : exn -> bool)
  (handler : exn -> result A) : result A :=
  match body with
  | Ok a => Ok a
  | Raise e => if catches e then handler e else Raise e
  end.

(** Lines 73-76: the value returned for the answer [response.text]. *)
Definition estimate_of_response (max_str_digits : nat) (response_text : text)
  : result Z :=
  try_except (py_int max_str_digits (strip response_text)) is_ValueError
    (fun _ => filter_numbers max_str_digits response_text).

(** ** Values of the providers' answers (parsed JSON) *)

Inductive value : Type :=
| VNone
| VBool (b : bool)
| VInt (z : Z)
| VStr (s : text)
| VList (l : list value)
| VDict (d : list (string * value)).

Fixpoint lookup (k : string) (d : list (string * value)) : option value :=
  match d with
  | [] => None
  | (k', v) :: d' => if String.eqb k k' then Some v else lookup k d'
  end.

(** [v[k]] for a str key [k] *)
Definition getitem (v : value) (k : string) : result value :=
  match v with
  | VDict d =>
      match lookup k d with
      | Some x => Ok x
      | None => Raise (KeyError k)
      end
  | _ => Raise TypeError
  end.

(** [v.split(':')[-1]] *)
Definition last_segment (v : value) : result text :=
  match v with
  | VStr s => Ok (split_last ":" s)
  | _ => Raise AttributeError
  end.

Definition rbind {A B : Type} (r : result A) (f : A -> result B) : result B :=
  match r with
  | Ok a => f a
  | Raise e => Raise e
  end.

(** [v[k1][k2]...] *)
Fixpoint getpath (v : value) (path : list string) : result value :=
  match path with
  | [] => Ok v
  | k :: path' => rbind (getitem v k) (fun x => getpath x path')
  end.

(** ** The world: providers, memoisation cache, store and output *)

(** The tuple [(Id, Url, Role, company, description, Experience, JobType)] *)
Record JobRecord : Type := mkJobRecord {
  Id : Z;
  Url : value;
  Role : value;
  company : value;
  description : value;
  Experience : Z;
  JobType : Z
}.

(** The relational store behind the connection: the committed rows of the
    table and the rows of the open transaction. *)
Record Store : Type := mkStore {
  committed : list JobRecord;
  staged : list JobRecord
}.

Inductive line : Type :=
| ErrorProcessingJob (e : exn)     (* "Error processing job: {e}" *)
| ErrorBatchInsert (e : exn).      (* "Error executing batch insert: {e}" *)

Record World : Type := mkWorld {
  requests : list text;         (* [api.get_job] calls so far, newest first *)
  prompts : list value;         (* descriptions sent to the model, newest first *)
  cache : list (text * value);  (* entries of the lru_cache, most recent first *)
  store : Store;
  stdout : list line            (* lines printed, newest first *)
}.

(** The job-search provider: the outcome of [get_job(job_id)] may depend
    on the requests made before. *)
Record Linkedin : Type := mkLinkedin {
  get_job : list text -> text -> result value
}.

(** The generative-text provider: [generate_content(prompt).text] for the
    prompt that embeds a description, given the earlier prompts. *)
Record GenerativeModel : Type := mkGenerativeModel {
  generate_content : list value -> value -> result text
}.

(** Effectful computations: state passing over the world, with exceptions. *)
Definition M (A : Type) : Type := World -> result A * World.

Definition ret {A : Type} (a : A) : M A := fun w => (Ok a, w).

Definition raise {A : Type} (e : exn) : M A := fun w => (Raise e, w).

Definition bind {A B : Type} (m : M A) (f : A -> M B) : M B :=
  fun w =>
    match m w with
    | (Ok a, w') => f a w'
    | (Raise e, w') => (Raise e, w')
    end.

Definition lift {A : Type} (r : result A) : M A := fun w => (r, w).

(** [try: body except <catches> as e: handler] *)
Definition try_catch {A : Type} (body : M A) (catches : exn -> bool)
  (handler : exn -> M A) : M A :=
  fun w =>
    match body w with
    | (Ok a, w') => (Ok a, w')
    | (Raise e, w') => if catches e then handler e w' else (Raise e, w')
    end.

Declare Scope monad_scope.
Delimit Scope monad_scope with monad.
Notation "x <- m ;; k" := (bind m (fun x => k))
  (at level 61, m at next level, right associativity) : monad_scope.
Notation "m ;;; k" := (bind m (fun _ => k))
  (at level 61, right associativity) : monad_scope.
Open Scope monad_scope.

Definition print (l : line) : M unit :=
  fun w => (Ok tt, mkWorld (requests w) (prompts w) (cache w) (store w)
                           (l :: stdout w)).

Definition set_cache (c : list (text * value)) (w : World) : World :=
  mkWorld (requests w) (prompts w) c (store w) (stdout w).

Definition set_store (s : Store) (w : World) : World :=
  mkWorld (requests w) (prompts w) (cache w) s (stdout w).

Definition log_request (job_id : text) (w : World) : World :=
  mkWorld (job_id :: requests w) (prompts w) (cache w) (store w) (stdout w).

Definition log_prompt (d : value) (w : World) : World :=
  mkWorld (requests w) (d :: prompts w) (cache w) (store w) (stdout w).

(** ** [batch_insert_jobs] *)

Definition text_eqb (a b : text) : bool :=
  if list_eq_dec ascii_dec a b then true else false.

Fixpoint distinct (ids : list Z) : bool :=
  match ids with
  | [] => true
  | i :: ids' => negb (existsb (Z.eqb i) ids') && distinct ids'
  end.

(** The table's primary key: no two rows with one [Id]. *)
Definition key_ok (s : Store) (batch : list JobRecord) : bool :=
  distinct (map Id (committed s ++ staged s ++ batch)).

(** [cursor.executemany(insert_query, batch)]: one multi-row INSERT, applied
    as a whole to the open transaction or refused as a whole. *)
Definition executemany (batch : list JobRecord) : M unit :=
  fun w =>
    if key_ok (store w) batch
    then (Ok tt, set_store (mkStore (committed (store w))
                                    (staged (store w) ++ batch)) w)
    else (Raise MysqlError, w).

(** [connection.commit()] *)
Definition commit : M unit :=
  fun w =>
    (Ok tt, set_store (mkStore (committed (store w) ++ staged (store w)) []) w).

Definition batch_insert_jobs (job_data_batch : list JobRecord) : M unit :=
  try_catch
    (executemany job_data_batch ;;; commit)
    is_mysql_Error
    (fun e => print (ErrorBatchInsert e)).

(** ** [estimate_experience]

    The prompt is a fixed text around the description, so the provider
    is given the description itself; the call is recorded in [prompts]
    whether it returns or raises. *)

Definition estimate_experience (max_str_digits : nat) (model : GenerativeModel)
  (d : value) : M Z :=
  fun w =>
    match generate_content model (prompts w) d with
    | Ok response_text =>
        (estimate_of_response max_str_digits response_text, log_prompt d w)
    | Raise e => (Raise e, log_prompt d w)
    end.

(** ** [get_job_details], memoised by [lru_cache(maxsize=1000)]

    The program uses one [api] object, so an entry is keyed by the job id.
    A call that raises stores nothing. *)

Definition maxsize : nat := 1000.

Fixpoint cache_find (k : text) (c : list (text * value)) : option value :=
  match c with
  | [] => None
  | (k', v) :: c' => if text_eqb k k' then Some v else cache_find k c'
  end.

Definition cache_remove (k : text) (c : list (text * value))
  : list (text * value) :=
  filter (fun kv => negb (text_eqb k (fst kv))) c.

Definition get_job_details (api : Linkedin) (job_id : text) : M value :=
  fun w =>
    match cache_find job_id (cache w) with
    | Some v =>
        (* hit: the entry becomes the most recently used *)
        (Ok v, set_cache ((job_id, v) :: cache_remove job_id (cache w)) w)
    | None =>
        match get_job api (requests w) job_id with
        | Ok v =>
            (* miss: the result is stored; a full cache drops its oldest entry *)
            (Ok v, set_cache (firstn maxsize ((job_id, v) :: cache w))
                     (log_request job_id w))
        | Raise e => (Raise e, log_request job_id w)
        end
    end.

(** ** [fetch_job_data] and [parallel_job_search] *)

Definition fetch_job_data (api : Linkedin) (job : value) : M value :=
  tracking_urn <- lift (rbind (getitem job "trackingUrn") last_segment) ;;
  get_job_details api tracking_urn.

(** [for x in xs: acc = body(x, acc)] *)
Fixpoint for_each {A B : Type} (xs : list A) (body : A -> B -> M B) (acc : B)
  : M B :=
  match xs with
  | [] => ret acc
  | x :: xs' => acc' <- body x acc ;; for_each xs' body acc'
  end.

(** *** The worker pool

    [executor.map] submits one task per job before any result is read.
    The ten workers take the tasks from the queue in order, and a task
    runs in three steps between which the other tasks may run: the lookup
    in the cache of [get_job_details] (after the job id is computed), the
    call of [api.get_job], and the storing of its result.  A schedule, the
    list of the indices of the tasks in the order in which they take
    their steps, fixes the interleaving. *)

Definition max_workers : nat := 10.

(** [api.get_job(job_id)]: the request is recorded and answered. *)
Definition api_get_job (api : Linkedin) (job_id : text) : M value :=
  fun w => (get_job api (requests w) job_id, log_request job_id w).

(** The wrapper of [lru_cache] before the call: a hit makes the entry the
    most recently used. *)
Definition cache_lookup (job_id : text) (w : World) : option value * World :=
  match cache_find job_id (cache w) with
  | Some v =>
      (Some v, set_cache ((job_id, v) :: cache_remove job_id (cache w)) w)
  | None => (None, w)
  end.

(** The wrapper of [lru_cache] after the call: the result is stored, a full
    cache dropping its oldest entry, unless another call has stored the
    key in the meantime. *)
Definition cache_store (job_id : text) (v : value) (w : World) : World :=
  match cache_find job_id (cache w) with
  | Some _ => w
  | None => set_cache (firstn maxsize ((job_id, v) :: cache w)) w
  end.

Inductive task : Type :=
| Queued (job : value)                  (* submitted, not yet run *)
| Looked (job_id : text)                (* not in the cache; call not yet made *)
| Called (job_id : text) (v : value)    (* the call returned; not yet stored *)
| Finished (r : result value)           (* the future holds a result *)
| Cancelled.                            (* the future was cancelled *)

(** The next step of a task. *)
Definition advance (api : Linkedin) (t : task) (w : World) : task * World :=
  match t with
  | Queued job =>
      match rbind (getitem job "trackingUrn") last_segment with
      | Raise e => (Finished (Raise e), w)
      | Ok job_id =>
          match cache_lookup job_id w with
          | (Some v, w') => (Finished (Ok v), w')
          | (None, w') => (Looked job_id, w')
          end
      end
  | Looked job_id =>
      match api_get_job api job_id w with
      | (Ok v, w') => (Called job_id v, w')
      | (Raise e, w') => (Finished (Raise e), w')
      end
  | Called job_id v => (Finished (Ok v), cache_store job_id v w)
  | Finished _ | Cancelled => (t, w)
  end.

(** A task run to its end without interruption. *)
Definition complete (api : Linkedin) (t : task) (w : World) : task * World :=
  let '(t1, w1) := advance api t w in
  let '(t2, w2) := advance api t1 w1 in
  advance api t2 w2.

Definition unfinished (t : task) : bool :=
  match t with
  | Finished _ | Cancelled => false
  | _ => true
  end.

Definition taken (t : task) : bool :=
  match t with
  | Queued _ => false
  | _ => true
  end.

Definition is_failed (t : task) : bool :=
  match t with
  | Finished (Raise _) => true
  | _ => false
  end.

(** A queued task can take its first step when a worker holds it: either
    a later task has already been taken from the queue, or the tasks up
    to it that are not finished are no more than the workers. *)
Definition can_start (i : nat) (tasks : list task) : bool :=
  existsb taken (skipn (S i) tasks) ||
  (length (filter unfinished (firstn (S i) tasks)) <=? max_workers).

Fixpoint advance_at (api : Linkedin) (i : nat) (tasks : list task) (w : World)
  : list task * World :=
  match tasks with
  | [] => ([], w)
  | t :: ts =>
      match i with
      | O => let '(t', w') := advance api t w in (t' :: ts, w')
      | S i' => let '(ts', w') := advance_at api i' ts w in (t :: ts', w')
      end
  end.

(** One entry of the schedule: task [i] takes its next step, if it can. *)
Definition step (api : Linkedin) (st : list task * World) (i : nat)
  : list task * World :=
  match nth_error (fst st) i with
  | Some (Queued _) =>
      if can_start i (fst st) then advance_at api i (fst st) (snd st) else st
  | _ => advance_at api i (fst st) (snd st)
  end.

(** After the schedule, the tasks that have started run to their end
    ([shutdown(wait=True)]). *)
Fixpoint finish_started (api : Linkedin) (tasks : list task) (w : World)
  : list task * World :=
  match tasks with
  | [] => ([], w)
  | Queued job :: ts =>
      let '(ts', w') := finish_started api ts w in (Queued job :: ts', w')
  | t :: ts =>
      let '(t', w1) := complete api t w in
      let '(ts', w2) := finish_started api ts w1 in
      (t' :: ts', w2)
  end.

(** The tasks still queued then: one that comes after a failed task has
    been cancelled when the failure was read; the others run, one after
    the other. *)
Fixpoint sweep (api : Linkedin) (failed : bool) (tasks : list task) (w : World)
  : list task * World :=
  match tasks with
  | [] => ([], w)
  | Queued job :: ts =>
      if failed then
        let '(ts', w') := sweep api true ts w in (Cancelled :: ts', w')
      else
        let '(t', w1) := complete api (Queued job) w in
        let '(ts', w2) := sweep api (is_failed t') ts w1 in
        (t' :: ts', w2)
  | t :: ts =>
      let '(ts', w') := sweep api (failed || is_failed t) ts w in
      (t :: ts', w')
  end.

(** The pool from the submission of the tasks to the end of the [with]
    block: the final state of the tasks, in the order of the jobs. *)
Definition pool (schedule : list nat) (api : Linkedin) (jobs : list value)
  (w : World) : list task * World :=
  let st := fold_left (step api) schedule (map Queued jobs, w) in
  let st' := finish_started api (fst st) (snd st) in
  sweep api false (fst st') (snd st').

(** The tasks of the jobs, in the order of the jobs, when the [with] block
    is left. *)
Definition pool_tasks (schedule : list nat) (api : Linkedin)
  (jobs : list value) (w : World) : list task :=
  fst (pool schedule api jobs w).

(** [list(...)] over the futures, read in the order of the jobs: the
    results, or the exception of the first future that holds one (a
    cancelled future is never read: it comes after a failed one). *)
Fixpoint collect (tasks : list task) : result (list value) :=
  match tasks with
  | [] => Ok []
  | Finished (Ok v) :: ts => rbind (collect ts) (fun vs => Ok (v :: vs))
  | Finished (Raise e) :: _ => Raise e
  | _ :: _ => Raise (ProviderError "CancelledError")
  end.

(** [list(executor.map(lambda job: fetch_job_data(api, job), jobs))] inside
    [with ThreadPoolExecutor(max_workers=10)]. *)
Definition executor_map (schedule : list nat) (api : Linkedin)
  (jobs : list value) : M (list value) :=
  fun w =>
    (collect (fst (pool schedule api jobs w)), snd (pool schedule api jobs w)).

Definition parallel_job_search (schedule : list nat) (api : Linkedin)
  (jobs : list value) : M (list value) :=
  executor_map schedule api jobs.

(** ** [job_search] *)

Definition company_path : list string :=
  ["companyDetails";
   "com.linkedin.voyager.deco.jobs.web.shared.WebCompactJobPostingCompany";
   "companyResolutionResult"; "name"]%string.

Definition url_path : list string :=
  ["applyMethod"; "com.linkedin.voyager.jobs.OffsiteApply";
   "companyApplyUrl"]%string.

Definition description_path : list string := ["description"; "text"]%string.

Definition title_path : list string := ["title"]%string.

(** [int(job['trackingUrn'].split(':')[-1])] *)
Definition tracking_id (max_str_digits : nat) (job : value) : result Z :=
  rbind (getitem job "trackingUrn")
    (fun urn => rbind (last_segment urn) (py_int max_str_digits)).

(** The body of the loop of [job_search] (lines 101-115). *)
Definition process_job (max_str_digits : nat) (model : GenerativeModel)
  (job_type : Z) (job : value) (job_data_batch : list JobRecord)
  : M (list JobRecord) :=
  try_catch
    (company_name <- lift (getpath job company_path) ;;
     url <- lift (getpath job url_path) ;;
     description <- lift (getpath job description_path) ;;
     title <- lift (getpath job title_path) ;;
     experience <- estimate_experience max_str_digits model description ;;
     if (experience <=? 1)%Z then
       id <- lift (tracking_id max_str_digits job) ;;
       ret (job_data_batch ++
            [mkJobRecord id url title company_name description experience
               job_type])
     else ret job_data_batch)
    is_Exception
    (fun e => print (ErrorProcessingJob e) ;;; ret job_data_batch).

(** Lines 95 and 100-115: the batch built from the fetched details. *)
Definition build_batch (max_str_digits : nat) (model : GenerativeModel)
  (job_type : Z) (job_details : list value) : M (list JobRecord) :=
  for_each job_details (process_job max_str_digits model job_type) [].

Definition job_search (max_str_digits : nat) (schedule : list nat)
  (api : Linkedin) (jobs : list value) (model : GenerativeModel)
  (job_type : Z) : M unit :=
  job_details <- parallel_job_search schedule api jobs ;;
  job_data_batch <- build_batch max_str_digits model job_type job_details ;;
  match job_data_batch with
  | [] => ret tt
  | _ :: _ => batch_insert_jobs job_data_batch
  end.

(** ** Functions used to state the properties *)

(** The value of a run of decimal digits. *)
Definition decimal (ds : text) : Z :=
  fold_left (fun acc c => (10 * acc + digit_value c)%Z) ds 0%Z.

(** The first maximal run of digits that starts at a word boundary, that
    is, whose first digit is not preceded by a word character. *)
Fixpoint first_token (prev : option ascii) (s : text) : option text :=
  match s with
  | [] => None
  | c :: s' =>
      if at_boundary prev s && is_digit c
      then Some (take_while is_digit s)
      else first_token (Some c) s'
  end.

Definition first_bounded_number (max_str_digits : nat) (t : text) : result Z :=
  match first_token None t with
  | None => Ok 0%Z
  | Some ds => py_int max_str_digits ds
  end.

(** The simpler function in the words of the specification: the first
    maximal digit run of the text, with the "+" that follows it if there
    is one; that "+" stripped; 0 if the text has no digit. *)
Fixpoint first_digit_run (s : text) : option text :=
  match s with
  | [] => None
  | c :: s' =>
      if is_digit c
      then Some (take_while is_digit s ++
                 match drop_while is_digit s with
                 | "+"%char :: _ => ["+"%char]
                 | _ => []
                 end)
      else first_digit_run s'
  end.

Definition first_run_number (max_str_digits : nat) (t : text) : result Z :=
  match first_digit_run t with
  | None => Ok 0%Z
  | Some run => py_int max_str_digits (remove_char "+" run)
  end.

(** The character before the position reached after [s]. *)
Fixpoint last_char (prev : option ascii) (s : text) : option ascii :=
  match s with
  | [] => prev
  | c :: s' => last_char (Some c) s'
  end.

(** The text contains a decimal digit. *)
Definition has_digit (s : text) : bool := existsb is_digit s.

(** The rest after an optional "+". *)
Definition after_plus (s : text) : text :=
  match s with
  | c :: s' => if is_char "+" c then s' else s
  | [] => []
  end.

Definition plus_part (s : text) : text :=
  match s with
  | c :: _ => if is_char "+" c then [c] else []
  | [] => []
  end.

Definition starts_with_digit (s : text) : bool :=
  match s with c :: _ => is_digit c | [] => false end.


(** ** Sample data *)

Definition empty_world : World := mkWorld [] [] [] (mkStore [] []) [].

(** A provider that answers every prompt with the same text. *)
Definition constant_model (answer : string) : GenerativeModel :=
  mkGenerativeModel (fun _ _ => Ok (lit answer)).

Definition urn (n : string) : value := VStr (lit "urn:li:jobPosting:" ++ lit n).

(** A job summary, as returned by the search. *)
Definition summary (n : string) : value := VDict [("trackingUrn"%string, urn n)].

(** A complete job detail. *)
Definition detail (n title body : string) : value :=
  VDict
    [("trackingUrn", urn n);
     ("title", VStr (lit title));
     ("description", VDict [("text", VStr (lit body))]);
     ("companyDetails",
      VDict
        [("com.linkedin.voyager.deco.jobs.web.shared.WebCompactJobPostingCompany",
          VDict [("companyResolutionResult",
                  VDict [("name", VStr (lit "Acme"))])])]);
     ("applyMethod",
      VDict
        [("com.linkedin.voyager.jobs.OffsiteApply",
          VDict [("companyApplyUrl", VStr (lit "https://acme.example/apply"))])])
    ]%string.

(** A job detail without an off-site apply URL. *)
Definition detail_without_url (n title body : string) : value :=
  VDict
    [("trackingUrn", urn n);
     ("title", VStr (lit title));
     ("description", VDict [("text", VStr (lit body))]);
     ("companyDetails",
      VDict
        [("com.linkedin.voyager.deco.jobs.web.shared.WebCompactJobPostingCompany",
          VDict [("companyResolutionResult",
                  VDict [("name", VStr (lit "Acme"))])])]);
     ("applyMethod", VDict [])
    ]%string.

(** A provider that knows the jobs "1" and "3" and fails on every other. *)
Definition sample_api : Linkedin :=
  mkLinkedin (fun _ job_id =>
    if text_eqb job_id (lit "1") then Ok (detail "1" "Junior developer" "No experience needed")
    else if text_eqb job_id (lit "3") then Ok (detail "3" "Intern" "Students welcome")
    else Raise (ProviderError "HTTP 500")).

Definition sample_record : JobRecord :=
  mkJobRecord 1 (VStr (lit "https://acme.example/apply"))
    (VStr (lit "Junior developer")) (VStr (lit "Acme"))
    (VStr (lit "No experience needed")) 0 1.

(** A world whose table already holds the posting 1. *)
Definition stocked_world : World :=
  mkWorld [] [] [] (mkStore [sample_record] []) [].

(** A required path is absent from a job detail. *)
Definition absent (job : value) (path : list string) : bool :=
  match getpath job path with
  | Ok _ => false
  | Raise _ => true
  end.

(** The world after a sequence of calls of [get_job_details], whatever
    their outcomes. *)
Definition run_calls (api : Linkedin) (job_ids : list text) (w : World) : World :=
  fold_left (fun w' job_id => snd (get_job_details api job_id w')) job_ids w.

Definition nonempty {A : Type} (l : list A) : bool :=
  match l with [] => false | _ :: _ => true end.

(** The world after one more printed line. *)
Definition logged (l : line) (w : World) : World :=
  mkWorld (requests w) (prompts w) (cache w) (store w) (l :: stdout w).


Definition intern_record : JobRecord :=
  mkJobRecord 3 (VStr (lit "https://acme.example/apply"))
    (VStr (lit "Intern")) (VStr (lit "Acme"))
    (VStr (lit "Students welcome")) 0 1.

(** The entry of [job_id] is in the cache with value [v], behind at most
    [n] more recently used entries. *)
Definition cached_within (job_id : text) (v : value) (n : nat)
  (c : list (text * value)) : Prop :=
  exists front back,
    c = front ++ (job_id, v) :: back /\
    ~ In job_id (map fst front) /\
    length front <= n.


(** Three workers that take turns, one step each. *)
Definition round_robin : list nat := [0; 1; 2; 0; 1; 2; 0; 1; 2].

(** Two workers that take turns, one step each. *)
Definition in_turns : list nat := [0; 1; 0; 1; 0; 1].

(** ** Further functions used to state properties *)

(** A match of the pattern's first alternative: a non-empty run of digits,
    then nothing or one "+". *)
Definition number_token (m : text) : bool :=
  starts_with_digit m &&
  match drop_while is_digit m with
  | [] => true
  | c :: rest => is_char "+" c && match rest with [] => true | _ => false end
  end.

(** A job detail whose tracking id is not a number. *)
Definition detail_with_text_id : value :=
  detail "not-a-number" "Junior developer" "No experience needed".

(** The description that [job_search] sends to the model for a job detail:
    none when one of the four fields is absent. *)
Definition prompted (job : value) : list value :=
  match getpath job company_path, getpath job url_path,
        getpath job description_path, getpath job title_path with
  | Ok _, Ok _, Ok d, Ok _ => [d]
  | _, _, _, _ => []
  end.

(** The record [r] holds the fields of the job detail [job], each in its
    column, with the tag [jt] and an experience of at most one year. *)
Definition record_of (lim : nat) (jt : Z) (job : value) (r : JobRecord) : Prop :=
  tracking_id lim job = Ok (Id r) /\
  getpath job url_path = Ok (Url r) /\
  getpath job title_path = Ok (Role r) /\
  getpath job company_path = Ok (company r) /\
  getpath job description_path = Ok (description r) /\
  (Experience r <= 1)%Z /\
  JobType r = jt.

(** A provider whose call is interrupted from the keyboard. *)
Definition interrupted_model : GenerativeModel :=
  mkGenerativeModel (fun _ _ => Raise Interrupt).

(** A cache filled to its capacity: 999 recent entries and, behind them,
    the entry of job "old". *)
Definition recent_entries : list (text * value) :=
  map (fun n => (repeat "x"%char (S n), VNone)) (seq 0 999).

Definition full_world : World :=
  mkWorld [] [] (recent_entries ++ [(lit "old", VInt 7)]) (mkStore [] []) [].

(** [job['trackingUrn'].split(':')[-1]]: the job id that [fetch_job_data]
    asks for. *)
Definition job_id_of (job : value) : result text :=
  rbind (getitem job "trackingUrn") last_segment.

(** [d] is a detail of the job [id] that a fetch running from the world
    [w] to the world [w'] can return: the entry of [id] in the cache at the
    start, or the answer of the provider to a request for [id] made on the
    way (after the requests [earlier], before the requests [later]). *)
Definition fetched (api : Linkedin) (w w' : World) (id : text) (d : value)
  : Prop :=
  In (id, d) (cache w) \/
  exists earlier later,
    get_job api (earlier ++ requests w) id = Ok d /\
    requests w' = later ++ id :: earlier ++ requests w.

(** A task that was not cancelled. *)
Definition live (t : task) : bool :=
  match t with Cancelled => false | _ => true end.


(** A task that has not yet asked the provider and may still do so. *)
Definition pending (t : task) : bool :=
  match t with Queued _ | Looked _ => true | _ => false end.

(** What the task [t] of the job [job] holds, in a fetch that has run from
    [w] to [w']. *)
Definition task_of (api : Linkedin) (w w' : World) (job : value) (t : task)
  : Prop :=
  match t with
  | Queued job' => job' = job
  | Looked id => job_id_of job = Ok id
  | Called id v => job_id_of job = Ok id /\ fetched api w w' id v
  | Finished (Ok v) => exists id, job_id_of job = Ok id /\ fetched api w w' id v
  | Finished (Raise _) | Cancelled => True
  end.

(** What holds of the tasks and of the world all along a fetch of [jobs]
    started in [w]: requests are only added, every task is that of its job,
    and every cache entry was there at the start or was fetched. *)
Definition fetching (api : Linkedin) (jobs : list value) (w : World)
  (tasks : list task) (w' : World) : Prop :=
  (exists new, requests w' = new ++ requests w) /\
  Forall2 (task_of api w w') jobs tasks /\
  (forall id d, In (id, d) (cache w') -> fetched api w w' id d).

(** The requests made so far and the tasks that may still make one are
    together no more than the jobs. *)
Definition counting (jobs : list value) (w : World)
  (tasks : list task) (w' : World) : Prop :=
  exists new,
    requests w' = new ++ requests w /\
    length new + length (filter pending tasks) <= length jobs.

(** ** [connect_to_database] and [main]

    The services reached from [main]: the database server, the login of
    the job-search provider, its search, and the configuration of the
    generative model.  The lines that [connect_to_database] and [main]
    print are kept in [notices]; those of [job_search] are in the
    world's [stdout]. *)

(** The environment variables read at start-up ([os.getenv] gives None
    for a variable that is not set). *)
Record Settings : Type := mkSettings {
  DB_HOST : option string;
  DB_USER : option string;
  DB_PASSWORD : option string;
  DB_NAME : option string;
  LINKEDIN_USERNAME : option string;
  LINKEDIN_PASSWORD : option string;
  GENAI_API_KEY : option string
}.

(** The arguments of [api.search_jobs]. *)
Record SearchQuery : Type := mkSearchQuery {
  keywords : string;
  location : string;
  job_type : string;
  listed_at : Z
}.

Record Services : Type := mkServices {
  (* [connect(host, user, password, database)]: raises, or returns a handle
     whose [is_connected()] is the boolean *)
  connect :
    option string -> option string -> option string -> option string ->
    result bool;
  (* [Linkedin(username, password)] *)
  login : option string -> option string -> result Linkedin;
  (* [genai.configure(api_key); genai.GenerativeModel('gemini-1.5-pro')] *)
  configure_genai : option string -> result GenerativeModel;
  (* [api.search_jobs(...)], given the searches made before *)
  search_jobs : list SearchQuery -> SearchQuery -> result (list value);
  (* the order in which the workers of the pool take their steps, in the
     fetch that follows the searches made so far *)
  workers : list SearchQuery -> list nat
}.

Inductive notice : Type :=
| SuccessfullyConnected         (* "Successfully connected to the database" *)
| ErrorConnecting (e : exn)     (* "Error connecting to database: {e}" *)
| ConnectionFailed              (* "Database connection failed. Exiting." *)
| SearchingJobsFor (keyword : string)   (* "Searching jobs for: {keyword}" *)
| SearchCompleted.              (* "Job search completed and data inserted." *)

Record Process : Type := mkProcess {
  world : World;
  notices : list notice;         (* lines printed, newest first *)
  logins : nat;                  (* calls of [Linkedin(...)] *)
  searches : list SearchQuery;   (* calls of [search_jobs], newest first *)
  closed : bool                  (* [connection.close()] has been called *)
}.

Definition PM (A : Type) : Type := Process -> result A * Process.

Definition pret {A : Type} (a : A) : PM A := fun p => (Ok a, p).

Definition pbind {A B : Type} (m : PM A) (f : A -> PM B) : PM B :=
  fun p =>
    match m p with
    | (Ok a, p') => f a p'
    | (Raise e, p') => (Raise e, p')
    end.

(** A computation on the world, run inside the process. *)
Definition in_world {A : Type} (m : M A) : PM A :=
  fun p =>
    let '(r, w') := m (world p) in
    (r, mkProcess w' (notices p) (logins p) (searches p) (closed p)).

Definition notify (n : notice) : PM unit :=
  fun p => (Ok tt, mkProcess (world p) (n :: notices p) (logins p)
                             (searches p) (closed p)).

Definition connect_to_database (svc : Services)
  (host user password database : option string) : PM (option unit) :=
  fun p =>
    match connect svc host user password database with
    | Ok true => pbind (notify SuccessfullyConnected) (fun _ => pret (Some tt)) p
    | Ok false => (Ok None, p)
    | Raise e =>
        if is_mysql_Error e
        then pbind (notify (ErrorConnecting e)) (fun _ => pret None) p
        else (Raise e, p)
    end.

Definition call_login (svc : Services) (username password : option string)
  : PM Linkedin :=
  fun p =>
    (login svc username password,
     mkProcess (world p) (notices p) (S (logins p)) (searches p) (closed p)).

Definition call_search_jobs (svc : Services) (q : SearchQuery)
  : PM (list value) :=
  fun p =>
    (search_jobs svc (searches p) q,
     mkProcess (world p) (notices p) (logins p) (q :: searches p) (closed p)).

(** [connection.close()]: the open transaction is dropped. *)
Definition close : PM unit :=
  fun p =>
    (Ok tt,
     mkProcess (set_store (mkStore (committed (store (world p))) []) (world p))
               (notices p) (logins p) (searches p) true).

(** [for x in xs: body(x)] *)
Fixpoint pfor {A : Type} (xs : list A) (body : A -> PM unit) : PM unit :=
  match xs with
  | [] => pret tt
  | x :: xs' => pbind (body x) (fun _ => pfor xs' body)
  end.

Definition main_keywords : list string :=
  ["Software Engineer"; "Backend"; "Cloud Engineer"]%string.

(** The body of the loop of [main] (lines 139-141). *)
Definition search_keyword (max_str_digits : nat) (svc : Services)
  (api : Linkedin) (model : GenerativeModel) (keyword : string) : PM unit :=
  pbind (notify (SearchingJobsFor keyword)) (fun _ =>
  pbind (call_search_jobs svc
           (mkSearchQuery keyword "United States" "F" 86400)) (fun jobs p =>
  in_world (job_search max_str_digits (workers svc (searches p)) api jobs
              model 1) p)).

Definition main (max_str_digits : nat) (env : Settings) (svc : Services)
  : PM unit :=
  pbind (connect_to_database svc (DB_HOST env) (DB_USER env)
           (DB_PASSWORD env) (DB_NAME env)) (fun connection =>
  match connection with
  | None => notify ConnectionFailed
  | Some _ =>
      pbind (call_login svc (LINKEDIN_USERNAME env) (LINKEDIN_PASSWORD env))
        (fun api =>
      pbind (fun p => (configure_genai svc (GENAI_API_KEY env), p))
        (fun model =>
      pbind (pfor main_keywords (search_keyword max_str_digits svc api model))
        (fun _ =>
      pbind close (fun _ => notify SearchCompleted))))
  end).

(** The query that [main] sends for a keyword. *)
Definition query_for (keyword : string) : SearchQuery :=
  mkSearchQuery keyword "United States" "F" 86400.

(** A row that [main] may add: at most one year, tagged 1. *)
Definition entry_level (r : JobRecord) : bool :=
  (Experience r <=? 1)%Z && (JobType r =? 1)%Z.

(** From [w] to [w'] the table has only grown: the stored rows are kept,
    the new ones are entry-level rows (when no transaction was open),
    no transaction is left open, and the primary key still holds. *)
Definition table_grows (w w' : World) : Prop :=
  (exists added,
      committed (store w') = committed (store w) ++ added /\
      (staged (store w) = [] -> forallb entry_level added = true)) /\
  (staged (store w) = [] -> staged (store w') = []) /\
  (key_ok (store w) [] = true -> key_ok (store w') [] = true).

Definition fresh_process : Process := mkProcess empty_world [] 0 [] false.

(** Services that all answer: one posting per search. *)
Definition sample_services : Services :=
  mkServices (fun _ _ _ _ => Ok true)
             (fun _ _ => Ok sample_api)
             (fun _ => Ok (constant_model "0"))
             (fun _ q => Ok [summary "1"])
             (fun _ => [0; 0; 0]).

(** The database server cannot be reached. *)
Definition offline_services : Services :=
  mkServices (fun _ _ _ _ => Raise MysqlError)
             (fun _ _ => Ok sample_api)
             (fun _ => Ok (constant_model "0"))
             (fun _ q => Ok [summary "1"])
             (fun _ => [0; 0; 0]).

(** The search answers once and then fails. *)
Definition throttled_services : Services :=
  mkServices (fun _ _ _ _ => Ok true)
             (fun _ _ => Ok sample_api)
             (fun _ => Ok (constant_model "0"))
             (fun earlier q =>
                match earlier with
                | [] => Ok [summary "1"]
                | _ :: _ => Raise (ProviderError "HTTP 429")
                end)
             (fun _ => [0; 0; 0]).

Definition no_settings : Settings :=
  mkSettings None None None None None None None.
(** * Properties *)

(** Case analysis on the term scrutinised by the goal. *)
Ltac break_match :=
  match goal with
  | |- context [match ?x with _ => _ end] => destruct x eqn:?
  | |- context [if ?x then _ else _] => destruct x eqn:?
  end.

#[local] Arguments Z.mul : simpl never.
#[local] Arguments Z.add : simpl never.
#[local] Arguments char_eqb : simpl never.
#[local] Arguments is_char : simpl never.
#[local] Arguments is_digit : simpl never.
#[local] Arguments is_word : simpl never.
#[local] Arguments is_space : simpl never.
#[local] Arguments is_int_space : simpl never.

(** ** Characters and text *)

Lemma digit_is_word c : is_digit c = true -> is_word c = true.
Proof.
  unfold is_word, is_alnum, is_digit. intros ->. reflexivity.
Qed.

Lemma digit_not_space c : is_digit c = true -> is_space c = false.
Proof.
  unfold is_digit, is_space, between. intros H.
  apply andb_true_iff in H as [H1 H2].
  apply N.leb_le in H1. apply N.leb_le in H2.
  repeat rewrite orb_false_iff; repeat split;
    apply andb_false_iff;
    first [ left; apply N.leb_gt; lia | right; apply N.leb_gt; lia ].
Qed.

Lemma digit_not_int_space c : is_digit c = true -> is_int_space c = false.
Proof.
  unfold is_digit, is_int_space, between. intros H.
  apply andb_true_iff in H as [H1 H2].
  apply N.leb_le in H1. apply N.leb_le in H2.
  repeat rewrite orb_false_iff; repeat split;
    apply andb_false_iff;
    first [ left; apply N.leb_gt; lia | right; apply N.leb_gt; lia ].
Qed.

Lemma digit_not_char ch c :
  is_digit ch = false -> is_digit c = true -> char_eqb ch c = false.
Proof.
  intros Hch Hc. unfold char_eqb.
  destruct (Ascii.eqb ch c) eqn:E; [|reflexivity].
  apply Ascii.eqb_eq in E. subst. congruence.
Qed.

Lemma digit_value_range c :
  is_digit c = true -> (0 <= digit_value c <= 9)%Z.
Proof.
  unfold is_digit, between, digit_value. intros H.
  apply andb_true_iff in H as [H1 H2].
  apply N.leb_le in H1. apply N.leb_le in H2. lia.
Qed.

Lemma take_drop_while p s : take_while p s ++ drop_while p s = s.
Proof.
  induction s as [|c s IH]; simpl; [reflexivity|].
  destruct (p c); simpl; [now rewrite IH | reflexivity].
Qed.

Lemma take_while_all p s : forallb p (take_while p s) = true.
Proof.
  induction s as [|c s IH]; simpl; [reflexivity|].
  destruct (p c) eqn:E; simpl; [now rewrite E | reflexivity].
Qed.

Lemma take_while_app_stop p ds c rest :
  forallb p ds = true -> p c = false ->
  take_while p (ds ++ c :: rest) = ds.
Proof.
  intros Hds Hc. induction ds as [|d ds IH]; simpl in *.
  - now rewrite Hc.
  - apply andb_true_iff in Hds as [Hd Hds]. rewrite Hd. now rewrite IH.
Qed.

Lemma take_while_length p s : length (take_while p s) <= length s.
Proof.
  induction s as [|c s IH]; simpl; [lia|]. destruct (p c); simpl; lia.
Qed.

Lemma firstn_prefix (pre rest : text) :
  firstn (length (pre ++ rest) - length rest) (pre ++ rest) = pre.
Proof.
  rewrite length_app.
  replace (length pre + length rest - length rest) with (length pre + 0) by lia.
  rewrite firstn_app_2. simpl. apply app_nil_r.
Qed.

(** ** [int] on a run of digits *)

Lemma decimal_acc_nonneg ds : forall acc,
  forallb is_digit ds = true -> (0 <= acc)%Z ->
  (0 <= fold_left (fun a c => (10 * a + digit_value c)%Z) ds acc)%Z.
Proof.
  induction ds as [|d ds IH]; simpl; intros acc Hds Hacc; [exact Hacc|].
  apply andb_true_iff in Hds as [Hd Hds].
  apply IH; [exact Hds|]. pose proof (digit_value_range _ Hd). lia.
Qed.

Lemma decimal_nonneg ds : forallb is_digit ds = true -> (0 <= decimal ds)%Z.
Proof. intros H. apply decimal_acc_nonneg; [exact H | lia]. Qed.

Lemma scan_digits_run ds : forall us n acc,
  forallb is_digit ds = true -> ds <> [] ->
  scan_digits us n acc ds =
  Some (n + length ds,
        fold_left (fun a c => (10 * a + digit_value c)%Z) ds acc, false, []).
Proof.
  induction ds as [|d ds IH]; intros us n acc Hds Hne; [congruence|].
  simpl in Hds. apply andb_true_iff in Hds as [Hd Hds].
  simpl. rewrite Hd. destruct ds as [|d' ds'].
  - simpl. replace (n + 1) with (S n) by lia. reflexivity.
  - rewrite IH; [|exact Hds|discriminate].
    replace (S n + length (d' :: ds')) with (n + S (length (d' :: ds'))) by lia.
    reflexivity.
Qed.

(** [int] of a non-empty run of digits is its decimal value, unless the
    run is longer than the interpreter's limit. *)
Lemma py_int_digits lim ds :
  forallb is_digit ds = true -> ds <> [] ->
  py_int lim ds =
  if exceeds_limit lim (length ds) then Raise ValueError else Ok (decimal ds).
Proof.
  intros Hds Hne. destruct ds as [|d ds]; [congruence|].
  pose proof Hds as Hall. simpl in Hds.
  apply andb_true_iff in Hds as [Hd Hds].
  unfold py_int. simpl drop_while. rewrite (digit_not_int_space _ Hd).
  unfold sign_of.
  rewrite (digit_not_char "+" d) by auto.
  rewrite (digit_not_char "-" d) by auto.
  rewrite Hd.
  rewrite (scan_digits_run (d :: ds) false 0 0 Hall) by discriminate.
  simpl. unfold decimal. simpl. destruct (exceeds_limit lim (S (length ds))); reflexivity.
Qed.

Lemma py_int_raises lim s e : py_int lim s = Raise e -> e = ValueError.
Proof.
  unfold py_int.
  destruct (sign_of (drop_while is_int_space s)) as [negative s2].
  destruct s2 as [|c s2]; [congruence|].
  destruct (is_digit c); [|congruence].
  destruct (scan_digits false 0 0 (c :: s2)) as [[[[n v] us] rest]|]; [|congruence].
  destruct us; [congruence|].
  destruct (exceeds_limit lim n); [congruence|].
  destruct (forallb is_int_space rest); congruence.
Qed.

Lemma exceeds_limit_small lim n :
  lim = 0 \/ n <= Nat.max 640 lim -> exceeds_limit lim n = false.
Proof.
  unfold exceeds_limit. intros [->|H]; [reflexivity|].
  destruct (0 <? lim) eqn:E0; [|reflexivity].
  destruct (640 <? n) eqn:E1; [|reflexivity].
  apply Nat.ltb_lt in E1. simpl. apply Nat.ltb_ge. lia.
Qed.

(** ** The matches of the pattern *)

Lemma plus_part_after_plus s : plus_part s ++ after_plus s = s.
Proof. destruct s as [|c s]; simpl; [reflexivity|]. destruct (is_char "+" c); reflexivity. Qed.

(** A greedy repetition followed by a continuation that never fails takes
    the longest run. *)
Lemma many_greedy p (f : text -> text) (k : cont) :
  (forall prev s, k prev s = Some (f s)) ->
  forall prev s, many p k prev s = Some (f (drop_while p s)).
Proof.
  intros Hk prev s. revert prev.
  induction s as [|c s IH]; intros prev; simpl; [apply Hk|].
  destruct (p c); [|apply Hk]. now rewrite IH.
Qed.

Lemma opt_plus_total prev s :
  exec (Opt (is_char "+")) (fun _ rest => Some rest) prev s = Some (after_plus s).
Proof.
  destruct s as [|c s]; simpl; [reflexivity|]. destruct (is_char "+" c); reflexivity.
Qed.

Lemma match_at_bare_integer prev s :
  match_at bare_integer prev s =
  if at_boundary prev s && starts_with_digit s
  then Some (after_plus (drop_while is_digit s))
  else None.
Proof.
  unfold match_at, bare_integer. simpl exec.
  destruct (at_boundary prev s); simpl; [|reflexivity].
  destruct s as [|c s]; simpl; [reflexivity|].
  destruct (is_digit c) eqn:Hc; [|reflexivity].
  rewrite many_greedy with (f := after_plus); [reflexivity|].
  intros p0 s0. exact (opt_plus_total p0 s0).
Qed.

Lemma match_at_integer_range_none prev s :
  at_boundary prev s && starts_with_digit s = false ->
  match_at integer_range prev s = None.
Proof.
  unfold match_at, integer_range. simpl exec.
  destruct (at_boundary prev s); simpl; [|reflexivity].
  destruct s as [|c s]; simpl; [reflexivity|]. now intros ->.
Qed.

(** The range alternative never decides a match: at every position the
    pattern matches what its first alternative matches. *)
Lemma match_at_experience_pattern prev s :
  match_at experience_pattern prev s = match_at bare_integer prev s.
Proof.
  change (match_at experience_pattern prev s) with
    (match match_at bare_integer prev s with
     | Some r => Some r
     | None => match_at integer_range prev s
     end).
  rewrite match_at_bare_integer.
  destruct (at_boundary prev s && starts_with_digit s) eqn:E; [reflexivity|].
  now apply match_at_integer_range_none.
Qed.

Lemma scan_ext r1 r2 :
  (forall prev s, match_at r1 prev s = match_at r2 prev s) ->
  forall s n prev, scan r1 n prev s = scan r2 n prev s.
Proof.
  intros H s. induction s as [|c s IH]; intros n prev.
  - destruct n; simpl; [|reflexivity]. rewrite H. reflexivity.
  - destruct n; simpl; [|apply IH]. rewrite H.
    destruct (match_at r2 prev (c :: s)); [|apply IH]. f_equal. apply IH.
Qed.

Lemma token_split s :
  (take_while is_digit s ++ plus_part (drop_while is_digit s))
    ++ after_plus (drop_while is_digit s) = s.
Proof.
  rewrite <- app_assoc, plus_part_after_plus. apply take_drop_while.
Qed.

Lemma plus_part_cases s : plus_part s = [] \/ plus_part s = ["+"%char].
Proof.
  destruct s as [|c s]; simpl; [now left|].
  unfold is_char, char_eqb. destruct (Ascii.eqb_spec "+" c); [subst; now right | now left].
Qed.

(** The first match found by the scan is the first digit run that starts at
    a word boundary, with the "+" that follows it, if any. *)
Lemma scan_head s : forall prev,
  (first_token prev s = None /\ scan experience_pattern 0 prev s = []) \/
  (exists ds p rest,
      first_token prev s = Some ds /\
      scan experience_pattern 0 prev s = (ds ++ p) :: rest /\
      (p = [] \/ p = ["+"%char]) /\
      forallb is_digit ds = true /\ ds <> [] /\ length ds <= length s).
Proof.
  induction s as [|c s IH]; intros prev.
  - left. split; [reflexivity|]. cbn [scan].
    rewrite match_at_experience_pattern, match_at_bare_integer.
    simpl. now rewrite andb_false_r.
  - cbn [scan first_token].
    rewrite match_at_experience_pattern, match_at_bare_integer.
    cbn [starts_with_digit].
    destruct (at_boundary prev (c :: s) && is_digit c) eqn:E.
    + right. apply andb_true_iff in E as [_ Hc].
      exists (take_while is_digit (c :: s)),
             (plus_part (drop_while is_digit (c :: s))).
      eexists. split; [reflexivity|]. split.
      * f_equal.
        rewrite <- (token_split (c :: s)) at 1 3.
        apply firstn_prefix.
      * split; [apply plus_part_cases|]. split; [apply take_while_all|].
        split; [|apply take_while_length].
        simpl. rewrite Hc. discriminate.
    + destruct (IH (Some c)) as [[H1 H2]|(ds & p & rest & H1 & H2 & H3 & H4 & H5 & H6)].
      * left. now split.
      * right. exists ds, p, rest. repeat split; auto. simpl. lia.
Qed.

Lemma digits_no_char ch ds :
  is_digit ch = false -> forallb is_digit ds = true ->
  existsb (char_eqb ch) ds = false.
Proof.
  intros Hch. induction ds as [|d ds IH]; simpl; [reflexivity|].
  intros H. apply andb_true_iff in H as [Hd Hds].
  rewrite (digit_not_char ch d) by auto. now apply IH.
Qed.

Lemma digits_remove_char ch ds :
  is_digit ch = false -> forallb is_digit ds = true ->
  remove_char ch ds = ds.
Proof.
  intros Hch. unfold remove_char.
  induction ds as [|d ds IH]; simpl; [reflexivity|].
  intros H. apply andb_true_iff in H as [Hd Hds].
  rewrite (digit_not_char ch d) by auto. simpl. now rewrite IH.
Qed.

Lemma drop_while_head p c s : p c = false -> drop_while p (c :: s) = c :: s.
Proof. intros H. simpl. now rewrite H. Qed.

Lemma forallb_rev (p : ascii -> bool) s :
  forallb p s = true -> forallb p (rev s) = true.
Proof.
  intros H. apply forallb_forall. intros x Hx. apply in_rev in Hx.
  rewrite forallb_forall in H. now apply H.
Qed.

Lemma strip_digits ds : forallb is_digit ds = true -> strip ds = ds.
Proof.
  intros H. unfold strip.
  assert (D : forall l, forallb is_digit l = true -> drop_while is_space l = l).
  { intros [|d l] Hl; [reflexivity|]. simpl in Hl.
    apply andb_true_iff in Hl as [Hd _].
    apply drop_while_head. now apply digit_not_space. }
  rewrite (D ds H). rewrite (D (rev ds)) by now apply forallb_rev.
  apply rev_involutive.
Qed.

(** [filter_numbers] is the number of the first digit run that starts at a
    word boundary (0 if there is none). *)
Lemma filter_numbers_first_token lim t :
  filter_numbers lim t = first_bounded_number lim t.
Proof.
  unfold filter_numbers, first_bounded_number, findall.
  destruct (scan_head t None) as [[H1 H2]|(ds & p & rest & H1 & H2 & H3 & H4 & H5 & H6)].
  - now rewrite H1, H2.
  - rewrite H1, H2. unfold contains. rewrite existsb_app.
    rewrite digits_no_char by auto.
    destruct H3 as [-> | ->].
    + rewrite app_nil_r. simpl. rewrite digits_remove_char by auto.
      now rewrite strip_digits.
    + simpl.
      assert (R : remove_char "+" (ds ++ ["+"%char]) = ds).
      { unfold remove_char. rewrite filter_app. simpl.
        rewrite app_nil_r. now apply (digits_remove_char "+"). }
      rewrite R. now rewrite strip_digits.
Qed.

Lemma first_token_no_digit s : forall prev,
  has_digit s = false -> first_token prev s = None.
Proof.
  unfold has_digit. induction s as [|c s IH]; intros prev H; [reflexivity|].
  simpl in H. apply orb_false_iff in H as [Hc Hs].
  cbn [first_token]. rewrite Hc, andb_false_r. now apply IH.
Qed.

Lemma first_token_after_prefix pre : forall prev s,
  has_digit pre = false ->
  first_token prev (pre ++ s) = first_token (last_char prev pre) s.
Proof.
  unfold has_digit. induction pre as [|c pre IH]; intros prev s H; [reflexivity|].
  simpl in H. apply orb_false_iff in H as [Hc Hs].
  cbn [app first_token last_char]. rewrite Hc, andb_false_r. now apply IH.
Qed.

Lemma first_token_length s : forall prev ds,
  first_token prev s = Some ds ->
  forallb is_digit ds = true /\ ds <> [] /\ length ds <= length s.
Proof.
  induction s as [|c s IH]; intros prev ds H; [discriminate|].
  cbn [first_token] in H.
  destruct (at_boundary prev (c :: s) && is_digit c) eqn:E.
  - injection H as <-. apply andb_true_iff in E as [_ Hc].
    split; [apply (take_while_all is_digit (c :: s))|].
    split; [|apply (take_while_length is_digit (c :: s))].
    simpl. rewrite Hc. discriminate.
  - destruct (IH _ _ H) as (H1 & H2 & H3). repeat split; auto. simpl. lia.
Qed.

(** ** [filter_numbers] on a text without digits *)

(** C9: on every text that contains no digit, [filter_numbers] returns 0. *)
Theorem filter_numbers_no_digit (lim : nat) (t : text) :
  has_digit t = false -> filter_numbers lim t = Ok 0%Z.
Proof.
  intros H. rewrite filter_numbers_first_token. unfold first_bounded_number.
  now rewrite first_token_no_digit.
Qed.

Lemma filter_numbers_no_digit_witness :
  has_digit (lit "Entry level, no experience needed") = false /\
  filter_numbers default_max_str_digits
    (lit "Entry level, no experience needed") = Ok 0%Z.
Proof.
  split; [reflexivity|].
  apply (filter_numbers_no_digit default_max_str_digits
           (lit "Entry level, no experience needed")).
  reflexivity.
Defined.

(** ** [filter_numbers] on a range *)

(** C2, as stated, fails: the text "2 roles, 3-5 years" contains the range
    "3-5" with 3 < 5, and [filter_numbers] returns 2, the first number of
    the text, not 3. *)
Lemma range_after_first_number_ignored :
  lit "2 roles, 3-5 years"
    = lit "2 roles, " ++ lit "3" ++ lit "-" ++ lit "5" ++ lit " years" /\
  (decimal (lit "3") < decimal (lit "5"))%Z /\
  filter_numbers default_max_str_digits (lit "2 roles, 3-5 years") = Ok 2%Z /\
  filter_numbers default_max_str_digits (lit "2 roles, 3-5 years")
    <> Ok (decimal (lit "3")).
Proof.
  split; [reflexivity|]. split; [reflexivity|]. split; [reflexivity|].
  vm_compute. discriminate.
Qed.

(** C2, amended: when the text before the range "N-M" contains no digit and
    does not end in a word character, [filter_numbers] returns N, provided
    the numeral N is within the interpreter's digit limit; on "Minimum 3-5
    years experience required" it returns 3. *)
Theorem filter_numbers_range (lim : nat) :
  (forall pre ds rest : text,
      has_digit pre = false ->
      word_before (last_char None pre) = false ->
      forallb is_digit ds = true -> ds <> [] ->
      exceeds_limit lim (length ds) = false ->
      filter_numbers lim (pre ++ ds ++ "-"%char :: rest) = Ok (decimal ds)) /\
  filter_numbers lim (lit "Minimum 3-5 years experience required") = Ok 3%Z.
Proof.
  assert (G : forall pre ds rest : text,
      has_digit pre = false ->
      word_before (last_char None pre) = false ->
      forallb is_digit ds = true -> ds <> [] ->
      exceeds_limit lim (length ds) = false ->
      filter_numbers lim (pre ++ ds ++ "-"%char :: rest) = Ok (decimal ds)).
  { intros pre ds rest Hpre Hlast Hds Hne Hlim.
    rewrite filter_numbers_first_token. unfold first_bounded_number.
    rewrite first_token_after_prefix by exact Hpre.
    destruct ds as [|d ds]; [congruence|].
    pose proof Hds as Hall. simpl in Hds.
    apply andb_true_iff in Hds as [Hd Hds'].
    cbn [app first_token]. unfold at_boundary. rewrite Hlast.
    cbn [word_at]. rewrite (digit_is_word _ Hd), Hd. cbn [xorb andb].
    change (d :: ds ++ "-"%char :: rest) with ((d :: ds) ++ "-"%char :: rest).
    rewrite take_while_app_stop by (auto; reflexivity).
    rewrite py_int_digits by (auto; discriminate).
    now rewrite Hlim. }
  split; [exact G|].
  apply (G (lit "Minimum ") (lit "3") (lit "5 years experience required"));
    try reflexivity; [discriminate|].
  apply exceeds_limit_small. right. change (length (lit "3")) with 1. lia.
Qed.

Lemma filter_numbers_range_witness :
  has_digit (lit "Needs ") = false /\
  word_before (last_char None (lit "Needs ")) = false /\
  filter_numbers default_max_str_digits
    (lit "Needs " ++ lit "0" ++ "-"%char :: lit "1 years, entry level")
  = Ok (decimal (lit "0")).
Proof.
  split; [reflexivity|]. split; [reflexivity|].
  apply (proj1 (filter_numbers_range default_max_str_digits)
           (lit "Needs ") (lit "0") (lit "1 years, entry level"));
    first [reflexivity | discriminate].
Defined.

(** ** [filter_numbers] and the first digit run *)

Lemma token_no_dash s :
  contains "-" (take_while is_digit s ++ plus_part (drop_while is_digit s))
  = false.
Proof.
  unfold contains. rewrite existsb_app.
  rewrite digits_no_char by (try apply take_while_all; reflexivity).
  destruct (plus_part_cases (drop_while is_digit s)) as [-> | ->]; reflexivity.
Qed.

Lemma scan_no_dash s : forall n prev,
  forallb (fun m => negb (contains "-" m)) (scan experience_pattern n prev s)
  = true.
Proof.
  induction s as [|c s IH]; intros n prev.
  - destruct n; cbn [scan]; [|reflexivity].
    rewrite match_at_experience_pattern, match_at_bare_integer.
    simpl. now rewrite andb_false_r.
  - destruct n; cbn [scan]; [|apply IH].
    rewrite match_at_experience_pattern, match_at_bare_integer.
    destruct (at_boundary prev (c :: s) && starts_with_digit (c :: s)); [|apply IH].
    cbn [forallb]. rewrite IH, andb_true_r.
    rewrite <- (token_split (c :: s)) at 1 3.
    rewrite firstn_prefix. now rewrite token_no_dash.
Qed.

(** C10, as stated, fails: on "a12" the first maximal digit run is "12",
    but it does not start at a word boundary, so the pattern has no match
    and [filter_numbers] returns 0. *)
Lemma filter_numbers_not_first_run :
  filter_numbers default_max_str_digits (lit "a12") = Ok 0%Z /\
  first_run_number default_max_str_digits (lit "a12") = Ok 12%Z.
Proof.
  split; reflexivity.
Qed.

(** C10, amended: on every text, [filter_numbers] is the number of the
    first maximal digit run that starts at a word boundary (0 if there is
    none); the range alternative never decides a match, and no match
    contains "-", so the branch that splits at "-" is never taken. *)
Theorem filter_numbers_refines_first_token (lim : nat) (t : text) :
  filter_numbers lim t = first_bounded_number lim t /\
  findall experience_pattern t = findall bare_integer t /\
  forallb (fun m => negb (contains "-" m)) (findall experience_pattern t)
  = true.
Proof.
  split; [apply filter_numbers_first_token|]. split.
  - unfold findall. apply scan_ext. apply match_at_experience_pattern.
  - apply scan_no_dash.
Qed.

(** ** [estimate_experience] *)

Lemma estimate_experience_result lim model d w resp :
  generate_content model (prompts w) d = Ok resp ->
  fst (estimate_experience lim model d w) = estimate_of_response lim resp.
Proof. intros H. unfold estimate_experience. now rewrite H. Qed.

Lemma filter_numbers_nonneg lim t n :
  filter_numbers lim t = Ok n -> (0 <= n)%Z.
Proof.
  rewrite filter_numbers_first_token. unfold first_bounded_number.
  destruct (first_token None t) as [ds|] eqn:E.
  - destruct (first_token_length _ _ _ E) as (H1 & H2 & _).
    rewrite py_int_digits by assumption.
    destruct (exceeds_limit lim (length ds)); [discriminate|].
    intros [= <-]. now apply decimal_nonneg.
  - intros [= <-]. lia.
Qed.

Lemma filter_numbers_returns lim t :
  lim = 0 \/ length t <= Nat.max 640 lim ->
  exists n, filter_numbers lim t = Ok n.
Proof.
  intros H. rewrite filter_numbers_first_token. unfold first_bounded_number.
  destruct (first_token None t) as [ds|] eqn:E; [|now exists 0%Z].
  destruct (first_token_length _ _ _ E) as (H1 & H2 & H3).
  rewrite py_int_digits by assumption.
  rewrite exceeds_limit_small by (destruct H; [now left | right; lia]).
  now exists (decimal ds).
Qed.

(** C4, as stated, fails on the direct-parse path: when the provider
    answers "-3", [int] accepts the answer and [estimate_experience]
    returns -3. *)
Lemma estimate_experience_negative :
  fst (estimate_experience default_max_str_digits (constant_model "-3")
         (VStr (lit "Junior developer")) empty_world) = Ok (-3)%Z /\
  (-3 < 0)%Z.
Proof.
  split; reflexivity.
Qed.

(** C4, amended: on the regex-fallback path (the direct parse of the
    answer fails) every integer that [estimate_experience] returns is
    non-negative, and it does return one when the answer has at most
    max(640, max_str_digits) characters or the digit limit is off; on the
    direct-parse path it returns the integer that the answer denotes. *)
Theorem estimate_experience_fallback_nonneg
  (lim : nat) (model : GenerativeModel) (d : value) (w : World) (resp : text) :
  generate_content model (prompts w) d = Ok resp ->
  (py_int lim (strip resp) = Raise ValueError ->
   (forall n, fst (estimate_experience lim model d w) = Ok n -> (0 <= n)%Z) /\
   (lim = 0 \/ length resp <= Nat.max 640 lim ->
    exists n, fst (estimate_experience lim model d w) = Ok n /\ (0 <= n)%Z)) /\
  (forall n, py_int lim (strip resp) = Ok n ->
   fst (estimate_experience lim model d w) = Ok n).
Proof.
  intros Hresp. rewrite (estimate_experience_result lim _ _ _ _ Hresp).
  unfold estimate_of_response, try_except. split.
  - intros ->. cbn [is_ValueError]. split.
    + intros n. apply filter_numbers_nonneg.
    + intros Hlen. destruct (filter_numbers_returns lim resp Hlen) as [n Hn].
      exists n. split; [exact Hn|]. now apply (filter_numbers_nonneg lim resp).
  - intros n ->. reflexivity.
Qed.

Lemma estimate_experience_fallback_nonneg_witness :
  exists n,
    fst (estimate_experience default_max_str_digits
           (constant_model "At least 2 years")
           (VStr (lit "Backend engineer")) empty_world) = Ok n /\
    (0 <= n)%Z.
Proof.
  apply (proj1 (estimate_experience_fallback_nonneg default_max_str_digits
                  (constant_model "At least 2 years")
                  (VStr (lit "Backend engineer")) empty_world
                  (lit "At least 2 years") eq_refl)).
  - reflexivity.
  - right. apply Nat.leb_le. reflexivity.
Defined.

(** C7: the answer's trimmed text is first parsed as an integer, and the
    regex fallback decides the result only when that parse fails; when the
    provider answers exactly "1" the direct parse returns 1. *)
Theorem estimate_experience_direct_first
  (lim : nat) (model : GenerativeModel) (d : value) (w : World) (resp : text) :
  generate_content model (prompts w) d = Ok resp ->
  fst (estimate_experience lim model d w) =
    match py_int lim (strip resp) with
    | Ok n => Ok n
    | Raise _ => filter_numbers lim resp
    end /\
  (resp = lit "1" ->
   py_int lim (strip resp) = Ok 1%Z /\
   fst (estimate_experience lim model d w) = Ok 1%Z).
Proof.
  intros Hresp. rewrite (estimate_experience_result lim _ _ _ _ Hresp).
  unfold estimate_of_response, try_except.
  assert (P1 : py_int lim (strip (lit "1")) = Ok 1%Z).
  { change (strip (lit "1")) with (lit "1").
    rewrite py_int_digits by (reflexivity || discriminate).
    rewrite exceeds_limit_small; [reflexivity|].
    right. change (length (lit "1")) with 1. lia. }
  split.
  - destruct (py_int lim (strip resp)) as [n|e] eqn:E; [reflexivity|].
    now rewrite (py_int_raises _ _ _ E).
  - intros ->. rewrite P1. now split.
Qed.

Lemma estimate_experience_direct_first_witness :
  fst (estimate_experience default_max_str_digits (constant_model "1")
         (VStr (lit "Graduate software engineer")) empty_world) = Ok 1%Z.
Proof.
  apply (proj2 (estimate_experience_direct_first default_max_str_digits
                  (constant_model "1")
                  (VStr (lit "Graduate software engineer")) empty_world
                  (lit "1") eq_refl)).
  reflexivity.
Defined.

(** ** [batch_insert_jobs] *)

(** C6: a batch insert is all or nothing.  When the statement is refused,
    [batch_insert_jobs] prints one line and leaves the store as it was
    (no commit, no row of the batch kept, no second attempt); when it is
    accepted, the open transaction with all rows of the batch is
    committed. *)
Theorem batch_insert_all_or_nothing (batch : list JobRecord) (w : World) :
  (forall e, fst (executemany batch w) = Raise e ->
     batch_insert_jobs batch w = (Ok tt, logged (ErrorBatchInsert e) w) /\
     store (snd (batch_insert_jobs batch w)) = store w) /\
  (fst (executemany batch w) = Ok tt ->
     fst (batch_insert_jobs batch w) = Ok tt /\
     committed (store (snd (batch_insert_jobs batch w)))
       = committed (store w) ++ staged (store w) ++ batch /\
     staged (store (snd (batch_insert_jobs batch w))) = [] /\
     stdout (snd (batch_insert_jobs batch w)) = stdout w).
Proof.
  unfold batch_insert_jobs, try_catch, bind, executemany, commit.
  destruct (key_ok (store w) batch); cbn.
  - split; [discriminate|]. intros _. now rewrite app_assoc.
  - split; [|discriminate]. intros e [= <-]. now split.
Qed.

Lemma batch_insert_all_or_nothing_witness :
  fst (executemany [sample_record] stocked_world) = Raise MysqlError /\
  store (snd (batch_insert_jobs [sample_record] stocked_world))
    = store stocked_world.
Proof.
  split; [reflexivity|].
  exact (proj2 (proj1 (batch_insert_all_or_nothing [sample_record] stocked_world)
                  MysqlError eq_refl)).
Defined.

(** ** The loop of [job_search] *)

Lemma getitem_raises v k e : getitem v k = Raise e -> is_Exception e = true.
Proof.
  destruct v; simpl; try (intros [= <-]; reflexivity).
  destruct (lookup k d); [discriminate|]. intros [= <-]. reflexivity.
Qed.

Lemma getpath_raises path : forall v e,
  getpath v path = Raise e -> is_Exception e = true.
Proof.
  induction path as [|k path IH]; intros v e; simpl; [discriminate|].
  destruct (getitem v k) as [x|e'] eqn:E; simpl.
  - apply IH.
  - intros [= <-]. eapply getitem_raises; eauto.
Qed.

Lemma for_each_app {A B : Type} (body : A -> B -> M B) (xs ys : list A) :
  forall acc w,
  for_each (xs ++ ys) body acc w =
  match for_each xs body acc w with
  | (Ok b, w') => for_each ys body b w'
  | (Raise e, w') => (Raise e, w')
  end.
Proof.
  induction xs as [|x xs IH]; intros acc w; [reflexivity|].
  cbn [app for_each]. unfold bind.
  destruct (body x acc w) as [[b|e] w']; [apply IH | reflexivity].
Qed.

(** One iteration, when a required path is absent. *)
Lemma process_job_absent lim model jt job e :
  (getpath job company_path = Raise e \/
   (exists c, getpath job company_path = Ok c) /\
   (getpath job url_path = Raise e \/
    (exists u, getpath job url_path = Ok u) /\
    (getpath job description_path = Raise e \/
     (exists d, getpath job description_path = Ok d) /\
     getpath job title_path = Raise e))) ->
  forall acc w,
  process_job lim model jt job acc w
  = (Ok acc, logged (ErrorProcessingJob e) w).
Proof.
  intros H acc w.
  assert (He : is_Exception e = true).
  { destruct H as [H|[_ [H|[_ [H|[_ H]]]]]]; eapply getpath_raises; eauto. }
  unfold process_job, try_catch, bind, lift.
  destruct H as [H|[[c Hc] [H|[[u Hu] [H|[[d Hd] H]]]]]].
  - rewrite H, He. reflexivity.
  - rewrite Hc, H, He. reflexivity.
  - rewrite Hc, Hu, H, He. reflexivity.
  - rewrite Hc, Hu, Hd, H, He. reflexivity.
Qed.

Lemma absent_cases job :
  absent job company_path || absent job url_path
  || absent job description_path || absent job title_path = true ->
  exists e,
   (getpath job company_path = Raise e \/
   (exists c, getpath job company_path = Ok c) /\
   (getpath job url_path = Raise e \/
    (exists u, getpath job url_path = Ok u) /\
    (getpath job description_path = Raise e \/
     (exists d, getpath job description_path = Ok d) /\
     getpath job title_path = Raise e))).
Proof.
  unfold absent.
  destruct (getpath job company_path) as [c|e1]; [|exists e1; now left].
  destruct (getpath job url_path) as [u|e2];
    [|exists e2; right; split; [now exists c | now left]].
  destruct (getpath job description_path) as [d|e3];
    [|exists e3; right; split; [now exists c|]; right; split;
      [now exists u | now left]].
  destruct (getpath job title_path) as [t|e4]; [discriminate|].
  intros _. exists e4. right. split; [now exists c|]. right.
  split; [now exists u|]. right. split; [now exists d | reflexivity].
Qed.

(** C8: when a required nested field (company name, apply URL, description
    text, title) is absent from a job detail, that job adds nothing to the
    batch, one line is printed, no exception leaves the iteration, and the
    loop goes on with the remaining jobs. *)
Theorem job_with_absent_field_is_skipped
  (lim : nat) (model : GenerativeModel) (jt : Z) (job : value) :
  absent job company_path || absent job url_path
  || absent job description_path || absent job title_path = true ->
  exists e,
    (forall acc w,
        process_job lim model jt job acc w
        = (Ok acc, logged (ErrorProcessingJob e) w)) /\
    (forall pre post acc w b0 w0,
        for_each pre (process_job lim model jt) acc w = (Ok b0, w0) ->
        for_each (pre ++ job :: post) (process_job lim model jt) acc w
        = for_each post (process_job lim model jt) b0
            (logged (ErrorProcessingJob e) w0)).
Proof.
  intros H. destruct (absent_cases job H) as [e He]. exists e.
  assert (P := process_job_absent lim model jt job e He).
  split; [exact P|].
  intros pre post acc w b0 w0 Hpre.
  rewrite for_each_app, Hpre. cbn [for_each]. unfold bind.
  now rewrite P.
Qed.

Lemma job_with_absent_field_is_skipped_witness :
  exists e,
    build_batch default_max_str_digits (constant_model "0") 1
      [detail "1" "Junior developer" "No experience needed";
       detail_without_url "2" "Tester" "No experience needed";
       detail "3" "Intern" "Students welcome"] empty_world
    = for_each [detail "3" "Intern" "Students welcome"]
        (process_job default_max_str_digits (constant_model "0") 1)
        [sample_record]
        (logged (ErrorProcessingJob e)
           (snd (build_batch default_max_str_digits (constant_model "0") 1
                   [detail "1" "Junior developer" "No experience needed"]
                   empty_world))).
Proof.
  destruct (job_with_absent_field_is_skipped default_max_str_digits
              (constant_model "0") 1
              (detail_without_url "2" "Tester" "No experience needed")
              eq_refl) as [e [_ H]].
  exists e.
  apply (H [detail "1" "Junior developer" "No experience needed"]
           [detail "3" "Intern" "Students welcome"] [] empty_world).
  reflexivity.
Defined.

Lemma estimate_experience_store lim model d w :
  store (snd (estimate_experience lim model d w)) = store w.
Proof.
  unfold estimate_experience. destruct (generate_content model (prompts w) d); reflexivity.
Qed.

(** One iteration, when the record can be built. *)
Lemma process_job_complete lim model jt job c u d t e id acc w w1 :
  getpath job company_path = Ok c ->
  getpath job url_path = Ok u ->
  getpath job description_path = Ok d ->
  getpath job title_path = Ok t ->
  estimate_experience lim model d w = (Ok e, w1) ->
  tracking_id lim job = Ok id ->
  process_job lim model jt job acc w
  = (Ok (if (e <=? 1)%Z then acc ++ [mkJobRecord id u t c d e jt] else acc), w1).
Proof.
  intros Hc Hu Hd Ht He Hid.
  unfold process_job, try_catch, bind, lift.
  rewrite Hc, Hu, Hd, Ht, He.
  destruct (e <=? 1)%Z; [|reflexivity]. now rewrite Hid.
Qed.

(** An iteration only ever appends a record whose experience is at most
    one, and never touches the store. *)
Lemma process_job_extends lim model jt job acc w b w' :
  process_job lim model jt job acc w = (Ok b, w') ->
  (exists extra, b = acc ++ extra /\
                 forallb (fun r => (Experience r <=? 1)%Z) extra = true) /\
  store w' = store w.
Proof.
  unfold process_job, try_catch, bind, lift, ret, print.
  pose proof (estimate_experience_store lim model) as S.
  assert (K : (exists extra, acc = acc ++ extra /\
                 forallb (fun r => (Experience r <=? 1)%Z) extra = true))
    by (exists []; split; [now rewrite app_nil_r | reflexivity]).
  destruct (getpath job company_path) as [c|?];
    [|break_match; intros [= <- <-]; now split].
  destruct (getpath job url_path) as [u|?];
    [|break_match; intros [= <- <-]; now split].
  destruct (getpath job description_path) as [d|?];
    [|break_match; intros [= <- <-]; now split].
  destruct (getpath job title_path) as [t|?];
    [|break_match; intros [= <- <-]; now split].
  specialize (S d w).
  destruct (estimate_experience lim model d w) as [[e|?] w1]; cbn [snd] in S;
    [|break_match; intros [= <- <-]; now split].
  destruct (e <=? 1)%Z eqn:E; [|intros [= <- <-]; now split].
  destruct (tracking_id lim job) as [id|?];
    [|break_match; intros [= <- <-]; now split].
  intros [= <- <-]. split; [|exact S].
  eexists. split; [reflexivity|]. cbn. now rewrite E.
Qed.

Lemma for_each_process_job_extends lim model jt jobs : forall acc w b w',
  for_each jobs (process_job lim model jt) acc w = (Ok b, w') ->
  (exists extra, b = acc ++ extra /\
                 forallb (fun r => (Experience r <=? 1)%Z) extra = true) /\
  store w' = store w.
Proof.
  induction jobs as [|job jobs IH]; intros acc w b w'.
  - cbn. intros [= <- <-]. split; [|reflexivity].
    exists []. split; [now rewrite app_nil_r | reflexivity].
  - cbn [for_each]. unfold bind.
    destruct (process_job lim model jt job acc w) as [[b1|?] w1] eqn:E1;
      [|discriminate].
    intros H. apply IH in H as [(x2 & -> & F2) S2].
    apply process_job_extends in E1 as [(x1 & -> & F1) S1].
    split; [|congruence].
    exists (x1 ++ x2). split; [now rewrite app_assoc|].
    rewrite forallb_app. now rewrite F1, F2.
Qed.

Lemma get_job_details_store api job_id w :
  store (snd (get_job_details api job_id w)) = store w.
Proof.
  unfold get_job_details. repeat break_match; reflexivity.
Qed.

Lemma fetch_job_data_store api job w :
  store (snd (fetch_job_data api job w)) = store w.
Proof.
  unfold fetch_job_data, bind, lift.
  destruct (rbind (getitem job "trackingUrn") last_segment); [|reflexivity].
  apply get_job_details_store.
Qed.

(** *** The worker pool: the steps of a task *)

Lemma advance_queued api job w :
  advance api (Queued job) w =
  match job_id_of job with
  | Raise e => (Finished (Raise e), w)
  | Ok id =>
      match cache_find id (cache w) with
      | Some v =>
          (Finished (Ok v), set_cache ((id, v) :: cache_remove id (cache w)) w)
      | None => (Looked id, w)
      end
  end.
Proof.
  cbn [advance]. unfold job_id_of, cache_lookup.
  destruct (rbind (getitem job "trackingUrn") last_segment) as [id|e];
    [|reflexivity].
  now destruct (cache_find id (cache w)).
Qed.

Lemma advance_looked api id w :
  advance api (Looked id) w =
  match get_job api (requests w) id with
  | Ok v => (Called id v, log_request id w)
  | Raise e => (Finished (Raise e), log_request id w)
  end.
Proof.
  cbn [advance]. unfold api_get_job.
  now destruct (get_job api (requests w) id).
Qed.

Lemma complete_looked api id w :
  complete api (Looked id) w =
  match get_job api (requests w) id with
  | Ok v => (Finished (Ok v), cache_store id v (log_request id w))
  | Raise e => (Finished (Raise e), log_request id w)
  end.
Proof.
  unfold complete. rewrite advance_looked.
  now destruct (get_job api (requests w) id).
Qed.

Lemma complete_queued api job w :
  complete api (Queued job) w =
  match job_id_of job with
  | Raise e => (Finished (Raise e), w)
  | Ok id =>
      match cache_find id (cache w) with
      | Some v =>
          (Finished (Ok v), set_cache ((id, v) :: cache_remove id (cache w)) w)
      | None => complete api (Looked id) w
      end
  end.
Proof.
  unfold complete at 1. rewrite advance_queued.
  destruct (job_id_of job) as [id|e]; [|reflexivity].
  destruct (cache_find id (cache w)) as [v|]; [reflexivity|].
  rewrite complete_looked, advance_looked.
  now destruct (get_job api (requests w) id).
Qed.

(** The cases of one step of a task. *)
Ltac advance_cases api t w :=
  destruct t as [?job|?id|?id ?v|?r|];
  [ rewrite (advance_queued api _ w);
    let id := fresh "id" in
    let e := fresh "e" in
    let Hid := fresh "Hid" in
    let v := fresh "v" in
    let Hfind := fresh "Hfind" in
    destruct (job_id_of _) as [id|e] eqn:Hid;
    [destruct (cache_find id (cache w)) as [v|] eqn:Hfind|]
  | rewrite (advance_looked api _ w);
    let v := fresh "v" in
    let e := fresh "e" in
    let Hget := fresh "Hget" in
    destruct (get_job api (requests w) _) as [v|e] eqn:Hget
  | cbn [advance]
  | cbn [advance]
  | cbn [advance] ].

(** *** The worker pool: what every step keeps *)

Lemma advance_at_spec api i : forall tasks w,
  (exists pre t post,
      tasks = pre ++ t :: post /\
      advance_at api i tasks w
      = (pre ++ fst (advance api t w) :: post, snd (advance api t w))) \/
  advance_at api i tasks w = (tasks, w).
Proof.
  induction i as [|i IH]; intros [|t ts] w; cbn [advance_at].
  - now right.
  - left. exists [], t, ts. now destruct (advance api t w).
  - now right.
  - destruct (IH ts w) as [(pre & t0 & post & -> & E)|E]; rewrite E.
    + left. now exists (t :: pre), t0, post.
    + now right.
Qed.

Section PoolInvariant.

Variable api : Linkedin.
Variable I : list task -> World -> Prop.
Hypothesis I_advance : forall pre t post w,
  I (pre ++ t :: post) w ->
  I (pre ++ fst (advance api t w) :: post) (snd (advance api t w)).
Hypothesis I_cancel : forall pre job post w,
  I (pre ++ Queued job :: post) w -> I (pre ++ Cancelled :: post) w.

Lemma advance_at_inv i tasks w :
  I tasks w ->
  I (fst (advance_at api i tasks w)) (snd (advance_at api i tasks w)).
Proof.
  intros H.
  destruct (advance_at_spec api i tasks w)
    as [(pre & t & post & -> & E)|E]; rewrite E; cbn [fst snd].
  - now apply I_advance.
  - exact H.
Qed.

Lemma step_inv st i :
  I (fst st) (snd st) -> I (fst (step api st i)) (snd (step api st i)).
Proof.
  intros H. unfold step.
  destruct (nth_error (fst st) i) as [[]|]; try now apply advance_at_inv.
  destruct (can_start i (fst st)); [now apply advance_at_inv | exact H].
Qed.

Lemma run_inv schedule : forall st,
  I (fst st) (snd st) ->
  I (fst (fold_left (step api) schedule st))
    (snd (fold_left (step api) schedule st)).
Proof.
  induction schedule as [|i schedule IH]; intros st H; [exact H|].
  cbn [fold_left]. apply IH. now apply step_inv.
Qed.

Lemma complete_inv pre t post w :
  I (pre ++ t :: post) w ->
  I (pre ++ fst (complete api t w) :: post) (snd (complete api t w)).
Proof.
  intros H. unfold complete.
  apply I_advance in H. destruct (advance api t w) as [t1 w1].
  cbn [fst snd] in H.
  apply I_advance in H. destruct (advance api t1 w1) as [t2 w2].
  cbn [fst snd] in H.
  now apply I_advance in H.
Qed.

Lemma finish_started_inv tasks : forall pre w,
  I (pre ++ tasks) w ->
  I (pre ++ fst (finish_started api tasks w))
    (snd (finish_started api tasks w)).
Proof.
  induction tasks as [|t ts IH]; intros pre w H; [exact H|].
  assert (G : I (pre ++ fst (let '(t', w1) := complete api t w in
                             let '(ts', w2) := finish_started api ts w1 in
                             (t' :: ts', w2)))
                (snd (let '(t', w1) := complete api t w in
                      let '(ts', w2) := finish_started api ts w1 in
                      (t' :: ts', w2)))).
  { apply complete_inv in H. destruct (complete api t w) as [t' w1].
    cbn [fst snd] in H.
    change (pre ++ t' :: ts) with (pre ++ [t'] ++ ts) in H.
    rewrite app_assoc in H. apply IH in H.
    destruct (finish_started api ts w1) as [ts' w2]. cbn [fst snd] in *.
    now rewrite <- app_assoc in H. }
  destruct t as [job|id|id v|r|]; cbn [finish_started]; try exact G.
  change (pre ++ Queued job :: ts) with (pre ++ [Queued job] ++ ts) in H.
  rewrite app_assoc in H. apply IH in H.
  destruct (finish_started api ts w) as [ts' w']. cbn [fst snd] in *.
  now rewrite <- app_assoc in H.
Qed.

Lemma sweep_inv tasks : forall failed pre w,
  I (pre ++ tasks) w ->
  I (pre ++ fst (sweep api failed tasks w)) (snd (sweep api failed tasks w)).
Proof.
  induction tasks as [|t ts IH]; intros failed pre w H; [exact H|].
  assert (G : forall t0 b,
             I (pre ++ t0 :: ts) w ->
             I (pre ++ fst (let '(ts', w') := sweep api b ts w in
                            (t0 :: ts', w')))
               (snd (let '(ts', w') := sweep api b ts w in (t0 :: ts', w')))).
  { intros t0 b H0.
    change (pre ++ t0 :: ts) with (pre ++ [t0] ++ ts) in H0.
    rewrite app_assoc in H0. apply (IH b) in H0.
    destruct (sweep api b ts w) as [ts' w']. cbn [fst snd] in *.
    now rewrite <- app_assoc in H0. }
  destruct t as [job|id|id v|r|]; cbn [sweep]; try now apply G.
  destruct failed; [apply G; now apply (I_cancel pre job)|].
  apply complete_inv in H.
  destruct (complete api (Queued job) w) as [t' w1]. cbn [fst snd] in H.
  change (pre ++ t' :: ts) with (pre ++ [t'] ++ ts) in H.
  rewrite app_assoc in H. apply (IH (is_failed t')) in H.
  destruct (sweep api (is_failed t') ts w1) as [ts' w2]. cbn [fst snd] in *.
  now rewrite <- app_assoc in H.
Qed.

Lemma pool_inv schedule jobs w :
  I (map Queued jobs) w ->
  I (pool_tasks schedule api jobs w) (snd (pool schedule api jobs w)).
Proof.
  intros H. unfold pool_tasks, pool.
  apply (sweep_inv _ false []), (finish_started_inv _ []).
  now apply (run_inv schedule (map Queued jobs, w)).
Qed.

End PoolInvariant.

Lemma cache_store_frame id v w :
  requests (cache_store id v w) = requests w /\
  prompts (cache_store id v w) = prompts w /\
  store (cache_store id v w) = store w /\
  stdout (cache_store id v w) = stdout w.
Proof.
  unfold cache_store. now destruct (cache_find id (cache w)).
Qed.

Lemma advance_frame api t w :
  prompts (snd (advance api t w)) = prompts w /\
  store (snd (advance api t w)) = store w /\
  stdout (snd (advance api t w)) = stdout w.
Proof.
  advance_cases api t w; cbn [snd]; auto.
  apply cache_store_frame.
Qed.

Lemma parallel_job_search_store schedule api jobs w :
  store (snd (parallel_job_search schedule api jobs w)) = store w.
Proof.
  unfold parallel_job_search, executor_map. cbn [snd].
  apply (pool_inv api (fun _ w' => store w' = store w)); [| |reflexivity].
  - intros pre t post w1 H.
    now rewrite (proj1 (proj2 (advance_frame api t w1))).
  - intros pre job post w1 H. exact H.
Qed.

(** *** The worker pool: how the tasks end *)

Lemma advance_live api t w :
  live t = true -> live (fst (advance api t w)) = true.
Proof.
  intros H. advance_cases api t w; auto.
Qed.

Lemma complete_finished api t w :
  live t = true -> exists r, fst (complete api t w) = Finished r.
Proof.
  intros H. destruct t as [job|id|id v|r|]; try discriminate H.
  - rewrite complete_queued.
    destruct (job_id_of job) as [id|e]; [|now eexists].
    destruct (cache_find id (cache w)) as [v|]; [now eexists|].
    rewrite complete_looked.
    destruct (get_job api (requests w) id); now eexists.
  - rewrite complete_looked.
    destruct (get_job api (requests w) id); now eexists.
  - now eexists.
  - now eexists.
Qed.






Lemma collect_ok tasks : forall details,
  collect tasks = Ok details ->
  Forall2 (fun t d => t = Finished (Ok d)) tasks details.
Proof.
  induction tasks as [|t ts IH]; intros details H.
  - injection H as <-. constructor.
  - destruct t as [job|id|id v|[v|e0]|]; try discriminate H.
    cbn [collect] in H.
    destruct (collect ts) as [ds|e]; [|discriminate H].
    injection H as <-. constructor; [reflexivity | now apply IH].
Qed.

Lemma batch_insert_jobs_store batch w :
  store (snd (batch_insert_jobs batch w)) =
  if key_ok (store w) batch
  then mkStore (committed (store w) ++ staged (store w) ++ batch) []
  else store w.
Proof.
  unfold batch_insert_jobs, try_catch, bind, executemany, commit.
  destruct (key_ok (store w) batch); cbn; [|reflexivity].
  now rewrite app_assoc.
Qed.

(** ** [job_search]: which records are added, and which are stored *)

(** C1, as stated, fails: the record of posting 3 has experience 0 and is
    added to the insert batch, but the batch also holds posting 1, whose
    Id is already in the table; the insert is refused and the record of
    posting 3 is not stored. *)
Lemma record_added_but_not_persisted :
  fst (build_batch default_max_str_digits (constant_model "0") 1
         [detail "1" "Junior developer" "No experience needed";
          detail "3" "Intern" "Students welcome"] stocked_world)
    = Ok [sample_record; intern_record] /\
  (Experience intern_record <= 1)%Z /\
  fst (job_search default_max_str_digits in_turns sample_api
         [summary "1"; summary "3"] (constant_model "0") 1 stocked_world)
    = Ok tt /\
  ~ In intern_record
      (committed (store (snd (job_search default_max_str_digits in_turns
         sample_api [summary "1"; summary "3"] (constant_model "0") 1
         stocked_world)))).
Proof.
  split; [reflexivity|]. split; [vm_compute; discriminate|].
  split; [reflexivity|].
  vm_compute. intros [H|[]]. discriminate H.
Qed.

(** C1, amended: a job detail whose record can be built (the four fields
    are present, the tracking id is an integer, the estimator returns) is
    added to the insert batch if and only if its estimated experience is
    at most 1, and no other test is applied; the batch is stored as a
    whole exactly when it is not empty and the insert is accepted. *)
Theorem record_added_iff_experience_le_1
  (lim : nat) (schedule : list nat) (api : Linkedin) (model : GenerativeModel)
  (jt : Z) :
  (forall pre job post w b0 w0 c u d t e w1 id b2 w2,
      build_batch lim model jt pre w = (Ok b0, w0) ->
      getpath job company_path = Ok c ->
      getpath job url_path = Ok u ->
      getpath job description_path = Ok d ->
      getpath job title_path = Ok t ->
      estimate_experience lim model d w0 = (Ok e, w1) ->
      tracking_id lim job = Ok id ->
      build_batch lim model jt (pre ++ job :: post) w = (Ok b2, w2) ->
      (In (mkJobRecord id u t c d e jt) b2 <-> (e <= 1)%Z)) /\
  (forall jobs w details w1 batch w2,
      parallel_job_search schedule api jobs w = (Ok details, w1) ->
      build_batch lim model jt details w1 = (Ok batch, w2) ->
      committed (store (snd (job_search lim schedule api jobs model jt w))) =
      if nonempty batch && key_ok (store w) batch
      then committed (store w) ++ staged (store w) ++ batch
      else committed (store w)).
Proof.
  split.
  - intros pre job post w b0 w0 c u d t e w1 id b2 w2
           Hpre Hc Hu Hd Ht He Hid Hall.
    unfold build_batch in *.
    rewrite for_each_app, Hpre in Hall. cbn [for_each] in Hall.
    unfold bind in Hall.
    rewrite (process_job_complete lim model jt job c u d t e id b0 w0 w1)
      in Hall by assumption.
    apply for_each_process_job_extends in Hpre as [(x0 & -> & F0) _].
    apply for_each_process_job_extends in Hall as [(x2 & -> & F2) _].
    cbn [app] in *. split.
    + intros Hin.
      assert (F : forallb (fun r => (Experience r <=? 1)%Z)
                    ((if (e <=? 1)%Z
                      then x0 ++ [mkJobRecord id u t c d e jt] else x0) ++ x2)
                  = true).
      { rewrite forallb_app, F2, andb_true_r.
        destruct (e <=? 1)%Z eqn:E; [|exact F0].
        rewrite forallb_app, F0. cbn. now rewrite E. }
      rewrite forallb_forall in F. apply F in Hin. cbn in Hin.
      now apply Z.leb_le.
    + intros Hle. apply Z.leb_le in Hle. rewrite Hle.
      apply in_or_app. left. apply in_or_app. right. now left.
  - intros jobs w details w1 batch w2 Hfetch Hbatch.
    pose proof (parallel_job_search_store schedule api jobs w) as S1.
    rewrite Hfetch in S1. cbn [snd] in S1.
    unfold build_batch in Hbatch.
    pose proof Hbatch as Hb.
    apply for_each_process_job_extends in Hb as [_ S2].
    unfold job_search, bind. rewrite Hfetch.
    unfold build_batch. rewrite Hbatch.
    destruct batch as [|r rs]; cbn [nonempty andb].
    + cbn. congruence.
    + rewrite batch_insert_jobs_store. rewrite S2, S1.
      destruct (key_ok (store w) (r :: rs)); reflexivity.
Qed.

Lemma record_added_iff_experience_le_1_witness :
  In sample_record
     [sample_record; intern_record] <-> (0 <= 1)%Z.
Proof.
  apply (proj1 (record_added_iff_experience_le_1 default_max_str_digits
                  in_turns sample_api (constant_model "0") 1)
           [] (detail "1" "Junior developer" "No experience needed")
           [detail "3" "Intern" "Students welcome"]
           empty_world [] empty_world
           (VStr (lit "Acme")) (VStr (lit "https://acme.example/apply"))
           (VStr (lit "No experience needed")) (VStr (lit "Junior developer"))
           0%Z
           (log_prompt (VStr (lit "No experience needed")) empty_world)
           1%Z
           [sample_record; intern_record]
           (log_prompt (VStr (lit "Students welcome"))
              (log_prompt (VStr (lit "No experience needed")) empty_world)));
    reflexivity.
Defined.

(** ** [parallel_job_search]: a failing fetch *)




(** ** [get_job_details]: the memoisation cache *)

Lemma text_eqb_eq a b : text_eqb a b = true <-> a = b.
Proof.
  unfold text_eqb. destruct (list_eq_dec ascii_dec a b); split; congruence.
Qed.

Lemma text_eqb_refl a : text_eqb a a = true.
Proof. now apply text_eqb_eq. Qed.

Lemma text_eqb_neq a b : a <> b -> text_eqb a b = false.
Proof.
  intros H. destruct (text_eqb a b) eqn:E; [|reflexivity].
  apply text_eqb_eq in E. contradiction.
Qed.

Lemma cache_find_front k front c :
  ~ In k (map fst front) -> cache_find k (front ++ c) = cache_find k c.
Proof.
  induction front as [|[k' v'] front IH]; intros H; [reflexivity|].
  cbn in *. rewrite text_eqb_neq by (intros ->; apply H; now left).
  apply IH. intros Hin. apply H. now right.
Qed.

Lemma cached_within_find job_id v n c :
  cached_within job_id v n c -> cache_find job_id c = Some v.
Proof.
  intros (front & back & -> & Hfront & _).
  rewrite cache_find_front by exact Hfront. cbn. now rewrite text_eqb_refl.
Qed.

Lemma cache_remove_app k c1 c2 :
  cache_remove k (c1 ++ c2) = cache_remove k c1 ++ cache_remove k c2.
Proof. apply filter_app. Qed.

Lemma cache_remove_keys k c x :
  In x (map fst (cache_remove k c)) -> In x (map fst c).
Proof.
  unfold cache_remove. rewrite !in_map_iff.
  intros [kv [<- Hin]]. apply filter_In in Hin as [Hin _]. now exists kv.
Qed.

Lemma cache_remove_length k c : length (cache_remove k c) <= length c.
Proof. apply filter_length_le. Qed.

Lemma firstn_keep {A : Type} n (front : list A) x back :
  length front < n ->
  exists back', firstn n (front ++ x :: back) = front ++ x :: back'.
Proof.
  intros H. rewrite firstn_app.
  rewrite firstn_all2 by lia.
  destruct (n - length front) as [|m] eqn:E; [lia|].
  cbn [firstn]. now eexists.
Qed.

(** A hit returns the cached value and makes no request. *)
Lemma get_job_details_hit api job_id v w :
  cache_find job_id (cache w) = Some v ->
  get_job_details api job_id w
  = (Ok v, set_cache ((job_id, v) :: cache_remove job_id (cache w)) w).
Proof. intros H. unfold get_job_details. now rewrite H. Qed.

(** After a call that returned [v] the entry is the most recent one. *)
Lemma get_job_details_caches api job_id w v :
  fst (get_job_details api job_id w) = Ok v ->
  cached_within job_id v 0 (cache (snd (get_job_details api job_id w))) /\
  (requests (snd (get_job_details api job_id w)) = requests w \/
   requests (snd (get_job_details api job_id w)) = job_id :: requests w).
Proof.
  unfold get_job_details.
  destruct (cache_find job_id (cache w)) as [v'|] eqn:F.
  - cbn. intros [= ->]. split; [|now left].
    exists [], (cache_remove job_id (cache w)). repeat split; auto.
  - destruct (get_job api (requests w) job_id) as [v'|e]; [|discriminate].
    cbn [fst snd]. intros [= ->]. split; [|now right].
    change maxsize with (S 999). cbn [set_cache cache firstn].
    exists [], (firstn 999 (cache (log_request job_id w))).
    repeat split; auto.
Qed.

(** One more call, for any job id, keeps the entry, at most one place
    further back, and requests nothing for [job_id]. *)
Lemma get_job_details_keeps api job_id v n k w :
  S n < maxsize ->
  cached_within job_id v n (cache w) ->
  cached_within job_id v (S n) (cache (snd (get_job_details api k w))) /\
  (requests (snd (get_job_details api k w)) = requests w \/
   requests (snd (get_job_details api k w)) = k :: requests w /\ k <> job_id).
Proof.
  intros Hn Hc. pose proof (cached_within_find _ _ _ _ Hc) as Hfind.
  destruct Hc as (front & back & Hcache & Hfront & Hlen).
  destruct (list_eq_dec ascii_dec k job_id) as [->|Hk].
  - rewrite (get_job_details_hit api job_id v w Hfind). cbn.
    split; [|now left].
    exists [], (cache_remove job_id (cache w)). repeat split; auto. cbn. lia.
  - unfold get_job_details.
    destruct (cache_find k (cache w)) as [v'|] eqn:F.
    + cbn. split; [|now left].
      exists ((k, v') :: cache_remove k front), (cache_remove k back).
      rewrite Hcache, cache_remove_app. cbn [cache_remove filter fst].
      fold (cache_remove k back).
      rewrite text_eqb_neq by exact Hk. cbn [negb].
      repeat split; auto.
      * cbn. intros [E|Hin]; [now apply Hk|].
        apply Hfront. eapply cache_remove_keys; eauto.
      * cbn. pose proof (cache_remove_length k front). lia.
    + destruct (get_job api (requests w) k) as [v'|e].
      * cbn [fst snd set_cache cache requests log_request].
        split; [|right; now split].
        rewrite Hcache.
        destruct (firstn_keep maxsize ((k, v') :: front) (job_id, v) back)
          as [back' Hb]; [cbn; lia|].
        exists ((k, v') :: front), back'. split; [exact Hb|].
        split; [|cbn; lia].
        cbn. intros [E|Hin]; [now apply Hk | now apply Hfront].
      * cbn. split; [|right; now split].
        exists front, back. repeat split; auto.
Qed.

Lemma run_calls_keeps api job_id v others : forall n w,
  n + length others < maxsize ->
  cached_within job_id v n (cache w) ->
  cached_within job_id v (n + length others) (cache (run_calls api others w)) /\
  exists new,
    requests (run_calls api others w) = new ++ requests w /\
    ~ In job_id new.
Proof.
  induction others as [|k others IH]; intros n w Hn Hc.
  - cbn. rewrite Nat.add_0_r. split; [exact Hc|]. exists []. now split.
  - cbn [length] in Hn. cbn [run_calls fold_left].
    destruct (get_job_details_keeps api job_id v n k w ltac:(lia) Hc) as [Hc' Hr].
    destruct (IH (S n) _ ltac:(lia) Hc') as [Hc'' (new & Hnew & Hnot)].
    fold (run_calls api others (snd (get_job_details api k w))).
    split.
    + cbn [length]. now replace (n + S (length others)) with (S n + length others) by lia.
    + destruct Hr as [Hr|[Hr Hk]].
      * exists new. rewrite Hnew, Hr. now split.
      * exists (new ++ [k]). rewrite Hnew, Hr, <- app_assoc. split; [reflexivity|].
        intros Hin. apply in_app_or in Hin as [Hin|[E|[]]]; [now apply Hnot|].
        now apply Hk.
Qed.

Lemma cache_remove_found k c v :
  cache_find k c = Some v -> length (cache_remove k c) < length c.
Proof.
  induction c as [|[k' v'] c IH]; [discriminate|].
  cbn [cache_find cache_remove filter fst]. fold (cache_remove k c).
  destruct (text_eqb k k'); cbn [negb length].
  - intros _. pose proof (cache_remove_length k c). lia.
  - intros H. apply IH in H. lia.
Qed.

(** The cache never holds more than [maxsize] entries. *)
Lemma get_job_details_bounded api k w :
  length (cache w) <= maxsize ->
  length (cache (snd (get_job_details api k w))) <= maxsize.
Proof.
  intros H. unfold get_job_details.
  destruct (cache_find k (cache w)) as [v|] eqn:F.
  - cbn. apply cache_remove_found in F. lia.
  - destruct (get_job api (requests w) k) as [v|e]; [|exact H].
    cbn [snd set_cache cache]. apply firstn_le_length.
Qed.

(** C5, as stated, fails.  A call that raises stores no entry: two calls
    for job 2, the second after the first has returned, make two requests
    (no entry was evicted: none was there).  And two calls that overlap in
    the pool both miss the cache: with the two workers taking turns, two
    fetches of job 1 make two requests. *)
Lemma raising_call_requested_twice :
  fst (get_job_details sample_api (lit "2") empty_world)
    = Raise (ProviderError "HTTP 500") /\
  cache (snd (get_job_details sample_api (lit "2") empty_world)) = [] /\
  fst (get_job_details sample_api (lit "2")
         (snd (get_job_details sample_api (lit "2") empty_world)))
    = Raise (ProviderError "HTTP 500") /\
  requests (snd (get_job_details sample_api (lit "2")
                   (snd (get_job_details sample_api (lit "2") empty_world))))
    = [lit "2"; lit "2"] /\
  fst (parallel_job_search in_turns sample_api
         [summary "1"; summary "1"] empty_world)
    = Ok [detail "1" "Junior developer" "No experience needed";
          detail "1" "Junior developer" "No experience needed"] /\
  requests (snd (parallel_job_search in_turns sample_api
                   [summary "1"; summary "1"] empty_world))
    = [lit "1"; lit "1"].
Proof.
  repeat split; reflexivity.
Qed.

(** C5, amended: for calls of [get_job_details] that follow one another.
    A call that finds the entry of the job id in the cache returns it
    without a request; a call that does not makes one request and returns
    or raises what the provider answers; a call that returns a value
    leaves it in the cache.  So after a call that returned [v], with fewer
    than 1000 other calls in between (the entry cannot have been evicted),
    the second call returns [v] from the cache without a request, and all
    these calls together requested that job at most once.  The cache never
    grows beyond 1000 entries. *)
Theorem get_job_details_memoised (api : Linkedin) (job_id : text) :
  (forall w v,
      cache_find job_id (cache w) = Some v ->
      fst (get_job_details api job_id w) = Ok v /\
      requests (snd (get_job_details api job_id w)) = requests w) /\
  (forall w,
      cache_find job_id (cache w) = None ->
      fst (get_job_details api job_id w) = get_job api (requests w) job_id /\
      requests (snd (get_job_details api job_id w)) = job_id :: requests w) /\
  (forall w v,
      fst (get_job_details api job_id w) = Ok v ->
      cache_find job_id (cache (snd (get_job_details api job_id w)))
      = Some v) /\
  (forall w v others,
      fst (get_job_details api job_id w) = Ok v ->
      length others < maxsize ->
      let w2 := run_calls api others (snd (get_job_details api job_id w)) in
      fst (get_job_details api job_id w2) = Ok v /\
      requests (snd (get_job_details api job_id w2)) = requests w2 /\
      exists new,
        requests w2 = new ++ requests w /\
        count_occ (list_eq_dec ascii_dec) new job_id <= 1) /\
  (forall w,
      length (cache w) <= maxsize ->
      length (cache (snd (get_job_details api job_id w))) <= maxsize).
Proof.
  split; [|split; [|split; [|split]]].
  - intros w v H. now rewrite (get_job_details_hit api job_id v w H).
  - intros w H. unfold get_job_details. rewrite H.
    now destruct (get_job api (requests w) job_id).
  - intros w v H.
    apply (cached_within_find job_id v 0).
    now apply get_job_details_caches.
  - intros w v others Hfirst Hlen w2.
    destruct (get_job_details_caches api job_id w v Hfirst) as [Hc Hr].
    destruct (run_calls_keeps api job_id v others 0
                (snd (get_job_details api job_id w)) Hlen Hc)
      as [Hc2 (new & Hnew & Hnot)].
    fold w2 in Hc2, Hnew.
    pose proof (cached_within_find _ _ _ _ Hc2) as Hfind.
    rewrite (get_job_details_hit api job_id v w2 Hfind). cbn [fst snd].
    split; [reflexivity|]. split; [reflexivity|].
    destruct Hr as [Hr|Hr].
    + exists new. rewrite Hnew, Hr. split; [reflexivity|].
      rewrite (proj1 (count_occ_not_In _ new job_id) Hnot). lia.
    + exists (new ++ [job_id]). rewrite Hnew, Hr, <- app_assoc.
      split; [reflexivity|]. rewrite count_occ_app.
      rewrite (proj1 (count_occ_not_In _ new job_id) Hnot). cbn.
      destruct (list_eq_dec ascii_dec job_id job_id); lia.
  - intros w. apply get_job_details_bounded.
Qed.

Lemma get_job_details_memoised_witness :
  fst (get_job_details sample_api (lit "1")
         (run_calls sample_api [lit "3"; lit "2"]
            (snd (get_job_details sample_api (lit "1") empty_world))))
  = Ok (detail "1" "Junior developer" "No experience needed").
Proof.
  apply (proj1 (proj2 (proj2 (proj2
           (get_job_details_memoised sample_api (lit "1")))))
           empty_world (detail "1" "Junior developer" "No experience needed")
           [lit "3"; lit "2"]).
  - reflexivity.
  - apply Nat.ltb_lt. reflexivity.
Defined.

(** * Further properties of the code *)

(** ** [filter_numbers]: the number it picks, and when it raises *)

Lemma take_while_app_rest p ds rest :
  forallb p ds = true ->
  match rest with c :: _ => p c = false | [] => True end ->
  take_while p (ds ++ rest) = ds.
Proof.
  intros Hds Hrest. destruct rest as [|c rest].
  - rewrite app_nil_r. induction ds as [|d ds IH]; [reflexivity|].
    simpl in *. apply andb_true_iff in Hds as [Hd Hds]. rewrite Hd.
    now rewrite IH.
  - now apply take_while_app_stop.
Qed.

Lemma drop_while_app_rest p ds rest :
  forallb p ds = true ->
  match rest with c :: _ => p c = false | [] => True end ->
  drop_while p (ds ++ rest) = rest.
Proof.
  intros Hds Hrest. induction ds as [|d ds IH].
  - destruct rest as [|c rest]; [reflexivity|]. simpl. now rewrite Hrest.
  - simpl in *. apply andb_true_iff in Hds as [Hd Hds]. rewrite Hd. now apply IH.
Qed.

(** X1: the number returned is that of the first digit run of the text, when
    no word character stands before it, whatever follows the run: a "+",
    a "-", a unit or the end of the text. *)
Theorem filter_numbers_first_number
  (lim : nat) (pre ds rest : text) :
  has_digit pre = false ->
  word_before (last_char None pre) = false ->
  forallb is_digit ds = true -> ds <> [] ->
  starts_with_digit rest = false ->
  exceeds_limit lim (length ds) = false ->
  filter_numbers lim (pre ++ ds ++ rest) = Ok (decimal ds).
Proof.
  intros Hpre Hlast Hds Hne Hrest Hlim.
  rewrite filter_numbers_first_token. unfold first_bounded_number.
  rewrite first_token_after_prefix by exact Hpre.
  destruct ds as [|d ds]; [congruence|].
  pose proof Hds as Hall. simpl in Hds.
  apply andb_true_iff in Hds as [Hd Hds'].
  cbn [app first_token]. unfold at_boundary. rewrite Hlast.
  cbn [word_at]. rewrite (digit_is_word _ Hd), Hd. cbn [xorb andb].
  change (d :: ds ++ rest) with ((d :: ds) ++ rest).
  rewrite take_while_app_rest; [|exact Hall|].
  - rewrite py_int_digits by (auto; discriminate). now rewrite Hlim.
  - destruct rest as [|c rest]; [exact I | exact Hrest].
Qed.

Lemma filter_numbers_first_number_witness :
  filter_numbers default_max_str_digits
    (lit "Requires " ++ lit "12" ++ lit "+ years in (3-5 preferred)")
  = Ok (decimal (lit "12")).
Proof.
  apply (filter_numbers_first_number default_max_str_digits
           (lit "Requires ") (lit "12") (lit "+ years in (3-5 preferred)"));
    first [reflexivity | discriminate].
Defined.

Lemma exceeds_limit_true lim n :
  exceeds_limit lim n = true <-> 0 < lim /\ 640 < n /\ lim < n.
Proof.
  unfold exceeds_limit. rewrite !andb_true_iff, !Nat.ltb_lt. tauto.
Qed.

(** X2: [filter_numbers] raises nothing but ValueError, and it raises
    exactly when the interpreter's digit limit is on and the first digit
    run at a word boundary has more digits than both 640 and the limit. *)
Theorem filter_numbers_raises_iff (lim : nat) (t : text) :
  (forall e, filter_numbers lim t = Raise e -> e = ValueError) /\
  ((exists e, filter_numbers lim t = Raise e) <->
   (exists ds, first_token None t = Some ds /\
               0 < lim /\ 640 < length ds /\ lim < length ds)).
Proof.
  rewrite filter_numbers_first_token. unfold first_bounded_number.
  destruct (first_token None t) as [ds|] eqn:E.
  - destruct (first_token_length _ _ _ E) as (H1 & H2 & _).
    rewrite py_int_digits by assumption.
    destruct (exceeds_limit lim (length ds)) eqn:L.
    + split; [now intros e [= <-]|]. split.
      * intros _. exists ds. split; [reflexivity|]. now apply exceeds_limit_true.
      * intros _. now exists ValueError.
    + split; [discriminate|]. split.
      * intros [e He]. discriminate.
      * intros (ds' & [= <-] & H). apply exceeds_limit_true in H. congruence.
  - split; [discriminate|]. split.
    + intros [e He]. discriminate.
    + intros (ds' & Hds & _). discriminate.
Qed.

(** X3: every match that [re.findall] returns for the pattern is a
    non-empty run of digits followed by nothing or by one "+". *)
Theorem findall_matches_are_number_tokens (t : text) :
  forallb number_token (findall experience_pattern t) = true.
Proof.
  unfold findall. generalize 0 at 1. generalize (@None ascii).
  induction t as [|c s IH]; intros prev n.
  - destruct n; cbn [scan]; [|reflexivity].
    rewrite match_at_experience_pattern, match_at_bare_integer.
    simpl. now rewrite andb_false_r.
  - destruct n; cbn [scan]; [|apply IH].
    rewrite match_at_experience_pattern, match_at_bare_integer.
    destruct (at_boundary prev (c :: s) && starts_with_digit (c :: s)) eqn:E;
      [|apply IH].
    cbn [forallb]. rewrite IH, andb_true_r.
    apply andb_true_iff in E as [_ Hc]. cbn [starts_with_digit] in Hc.
    rewrite <- (token_split (c :: s)) at 1 3.
    rewrite firstn_prefix. unfold number_token.
    assert (Hp : match plus_part (drop_while is_digit (c :: s)) with
                 | x :: _ => is_digit x = false
                 | [] => True
                 end).
    { destruct (drop_while is_digit (c :: s)) as [|x r]; [exact I|].
      cbn [plus_part]. unfold is_char, char_eqb.
      destruct (Ascii.eqb_spec "+" x) as [<-|_]; [reflexivity | exact I]. }
    rewrite drop_while_app_rest by (try apply take_while_all; exact Hp).
    apply andb_true_iff. split.
    + simpl. now rewrite Hc.
    + destruct (plus_part_cases (drop_while is_digit (c :: s))) as [-> | ->];
        reflexivity.
Qed.

Lemma filter_numbers_raises_iff_witness :
  exists e, filter_numbers 700 (repeat "9"%char 701) = Raise e.
Proof.
  apply (proj2 (proj2 (filter_numbers_raises_iff 700 (repeat "9"%char 701)))).
  exists (repeat "9"%char 701).
  split; [vm_compute; reflexivity|].
  rewrite repeat_length. repeat split; apply Nat.ltb_lt; reflexivity.
Defined.

(** ** [estimate_experience]: an answer that is a number between blanks *)

Lemma strip_around ws1 ds ws2 :
  forallb is_space ws1 = true -> forallb is_space ws2 = true ->
  forallb is_digit ds = true -> ds <> [] ->
  strip (ws1 ++ ds ++ ws2) = ds.
Proof.
  intros H1 H2 Hds Hne. unfold strip.
  assert (Hhead : forall l r, forallb is_digit l = true -> l <> [] ->
            match l ++ r with c :: _ => is_space c = false | [] => True end).
  { intros [|d l] r Hl Hn; [congruence|]. simpl in *.
    apply andb_true_iff in Hl as [Hd _]. now apply digit_not_space. }
  rewrite (drop_while_app_rest is_space ws1 (ds ++ ws2) H1 (Hhead ds ws2 Hds Hne)).
  rewrite rev_app_distr.
  rewrite <- (app_nil_r (rev ds)) at 1.
  rewrite drop_while_app_rest.
  - rewrite app_nil_r. apply rev_involutive.
  - now apply forallb_rev.
  - apply Hhead; [now apply forallb_rev|].
    intros E. apply Hne. apply (f_equal (@rev ascii)) in E.
    now rewrite rev_involutive in E.
Qed.

(** X4: when the provider's answer is a run of digits with only white
    space around it (a trailing newline, for instance), the estimate is
    the value of that run. *)
Theorem estimate_experience_of_padded_number
  (lim : nat) (model : GenerativeModel) (d : value) (w : World)
  (ws1 ds ws2 : text) :
  generate_content model (prompts w) d = Ok (ws1 ++ ds ++ ws2) ->
  forallb is_space ws1 = true -> forallb is_space ws2 = true ->
  forallb is_digit ds = true -> ds <> [] ->
  exceeds_limit lim (length ds) = false ->
  fst (estimate_experience lim model d w) = Ok (decimal ds).
Proof.
  intros Hresp H1 H2 Hds Hne Hlim.
  rewrite (estimate_experience_result lim _ _ _ _ Hresp).
  unfold estimate_of_response, try_except.
  rewrite strip_around by assumption.
  rewrite py_int_digits by assumption. now rewrite Hlim.
Qed.

Lemma estimate_experience_of_padded_number_witness :
  fst (estimate_experience default_max_str_digits (constant_model " 3 ")
         (VStr (lit "Backend engineer")) empty_world)
  = Ok (decimal (lit "3")).
Proof.
  apply (estimate_experience_of_padded_number default_max_str_digits
           (constant_model " 3 ") (VStr (lit "Backend engineer")) empty_world
           (lit " ") (lit "3") (lit " "));
    first [reflexivity | discriminate].
Defined.

(** ** The tracking id: [fetch_job_data] and the [Id] of a record *)

Lemma split_last_absent ch s : contains ch s = false -> split_last ch s = s.
Proof.
  intros H. destruct s as [|c s]; [reflexivity|].
  cbn [split_last]. now rewrite H.
Qed.

Lemma contains_app_char ch p s : contains ch (p ++ ch :: s) = true.
Proof.
  unfold contains. rewrite existsb_app. cbn [existsb].
  unfold char_eqb. rewrite Ascii.eqb_refl. cbn. apply orb_true_r.
Qed.

Lemma split_last_after ch p seg :
  contains ch seg = false -> split_last ch (p ++ ch :: seg) = seg.
Proof.
  intros H. induction p as [|c p IH].
  - cbn [app split_last].
    pose proof (contains_app_char ch [] seg) as C. cbn [app] in C.
    rewrite C. now apply split_last_absent.
  - cbn [app split_last].
    change (c :: p ++ ch :: seg) with ((c :: p) ++ ch :: seg).
    rewrite contains_app_char. exact IH.
Qed.

(** X5: the job id that [fetch_job_data] asks for is the part of the
    summary's tracking urn after its last colon; a summary without a
    tracking urn raises KeyError before anything is requested. *)
Theorem fetch_job_data_requests_last_segment
  (api : Linkedin) (job : value) (w : World) :
  (forall p seg,
      getitem job "trackingUrn" = Ok (VStr (p ++ ":"%char :: seg)) ->
      contains ":" seg = false ->
      fetch_job_data api job w = get_job_details api seg w) /\
  (forall d,
      job = VDict d -> lookup "trackingUrn" d = None ->
      fetch_job_data api job w = (Raise (KeyError "trackingUrn"), w)).
Proof.
  unfold fetch_job_data, bind, lift. split.
  - intros p seg Hurn Hseg. rewrite Hurn. cbn [rbind last_segment].
    now rewrite split_last_after.
  - intros d -> Hd. cbn [getitem]. now rewrite Hd.
Qed.

Lemma fetch_job_data_requests_last_segment_witness :
  fetch_job_data sample_api (summary "3") empty_world
  = get_job_details sample_api (lit "3") empty_world.
Proof.
  apply (proj1 (fetch_job_data_requests_last_segment sample_api (summary "3")
                  empty_world) (lit "urn:li:jobPosting") (lit "3"));
    reflexivity.
Defined.

(** X6: the [Id] of a record is the number after the last colon of the
    detail's tracking urn. *)
Theorem tracking_id_is_last_segment
  (lim : nat) (job : value) (p ds : text) :
  getitem job "trackingUrn" = Ok (VStr (p ++ ":"%char :: ds)) ->
  forallb is_digit ds = true -> ds <> [] ->
  exceeds_limit lim (length ds) = false ->
  tracking_id lim job = Ok (decimal ds).
Proof.
  intros Hurn Hds Hne Hlim. unfold tracking_id. rewrite Hurn.
  cbn [rbind last_segment].
  rewrite split_last_after by (apply digits_no_char; [reflexivity | exact Hds]).
  rewrite py_int_digits by assumption. now rewrite Hlim.
Qed.

Lemma tracking_id_is_last_segment_witness :
  tracking_id default_max_str_digits
    (detail "4207" "Junior developer" "No experience needed")
  = Ok (decimal (lit "4207")).
Proof.
  apply (tracking_id_is_last_segment default_max_str_digits
           (detail "4207" "Junior developer" "No experience needed")
           (lit "urn:li:jobPosting") (lit "4207"));
    first [reflexivity | discriminate].
Defined.

Lemma tracking_id_raises lim job e :
  tracking_id lim job = Raise e -> is_Exception e = true.
Proof.
  unfold tracking_id.
  destruct (getitem job "trackingUrn") as [u|e'] eqn:E; cbn [rbind].
  - destruct u; cbn; try (intros [= <-]; reflexivity).
    intros H. apply py_int_raises in H. now subst.
  - intros [= <-]. eapply getitem_raises; eauto.
Qed.

(** X7: a job detail with all four fields whose tracking id is not an
    integer adds no record: when its estimated experience is at most 1
    the failed conversion is printed and the job skipped, and when it is
    larger the id is never looked at. *)
Theorem process_job_without_integer_id
  (lim : nat) (model : GenerativeModel) (jt : Z) (job : value)
  (c u d t : value) (e : Z) (ex : exn) (acc : list JobRecord) (w w1 : World) :
  getpath job company_path = Ok c ->
  getpath job url_path = Ok u ->
  getpath job description_path = Ok d ->
  getpath job title_path = Ok t ->
  estimate_experience lim model d w = (Ok e, w1) ->
  tracking_id lim job = Raise ex ->
  process_job lim model jt job acc w
  = (Ok acc, if (e <=? 1)%Z then logged (ErrorProcessingJob ex) w1 else w1).
Proof.
  intros Hc Hu Hd Ht He Hid.
  unfold process_job, try_catch, bind, lift.
  rewrite Hc, Hu, Hd, Ht, He.
  destruct (e <=? 1)%Z; [|reflexivity].
  rewrite Hid. now rewrite (tracking_id_raises _ _ _ Hid).
Qed.

Lemma process_job_without_integer_id_witness :
  process_job default_max_str_digits (constant_model "0") 1
    detail_with_text_id [] empty_world
  = (Ok [], logged (ErrorProcessingJob ValueError)
              (log_prompt (VStr (lit "No experience needed")) empty_world)).
Proof.
  apply (process_job_without_integer_id default_max_str_digits
           (constant_model "0") 1 detail_with_text_id
           (VStr (lit "Acme")) (VStr (lit "https://acme.example/apply"))
           (VStr (lit "No experience needed")) (VStr (lit "Junior developer"))
           0%Z ValueError [] empty_world
           (log_prompt (VStr (lit "No experience needed")) empty_world));
    reflexivity.
Defined.

(** ** The loop of [job_search]: what it builds and what it touches *)

Lemma estimate_experience_frame lim model d w :
  prompts (snd (estimate_experience lim model d w)) = d :: prompts w /\
  requests (snd (estimate_experience lim model d w)) = requests w /\
  cache (snd (estimate_experience lim model d w)) = cache w /\
  stdout (snd (estimate_experience lim model d w)) = stdout w.
Proof.
  unfold estimate_experience.
  destruct (generate_content model (prompts w) d); cbn; auto.
Qed.

Ltac finish_step :=
  cbn; repeat split; auto;
  try discriminate;
  try (intros ? [= <-]; auto; now left).

(** One iteration: its outcome, its record and its effects. *)
Lemma process_job_step lim model jt job acc w :
  (forall e, fst (process_job lim model jt job acc w) = Raise e ->
             is_Exception e = false) /\
  (forall b, fst (process_job lim model jt job acc w) = Ok b ->
             b = acc \/ exists r, b = acc ++ [r] /\ record_of lim jt job r) /\
  prompts (snd (process_job lim model jt job acc w)) = prompted job ++ prompts w /\
  requests (snd (process_job lim model jt job acc w)) = requests w /\
  cache (snd (process_job lim model jt job acc w)) = cache w /\
  store (snd (process_job lim model jt job acc w)) = store w.
Proof.
  unfold process_job, try_catch, bind, lift, ret, print, prompted.
  destruct (getpath job company_path) as [c|x] eqn:Hc;
    [|rewrite (getpath_raises _ _ _ Hc); finish_step].
  destruct (getpath job url_path) as [u|x] eqn:Hu;
    [|rewrite (getpath_raises _ _ _ Hu); finish_step].
  destruct (getpath job description_path) as [d|x] eqn:Hd;
    [|rewrite (getpath_raises _ _ _ Hd); finish_step].
  destruct (getpath job title_path) as [t|x] eqn:Ht;
    [|rewrite (getpath_raises _ _ _ Ht); finish_step].
  destruct (estimate_experience_frame lim model d w) as (P & R & C & _).
  pose proof (estimate_experience_store lim model d w) as S.
  destruct (estimate_experience lim model d w) as [[e|x] w1]; cbn [snd] in *.
  - destruct (e <=? 1)%Z eqn:E.
    + destruct (tracking_id lim job) as [id|x] eqn:Hid.
      * cbn. repeat split; auto; try discriminate.
        intros b [= <-]. right. eexists. split; [reflexivity|].
        unfold record_of. cbn. repeat split; auto. now apply Z.leb_le.
      * rewrite (tracking_id_raises _ _ _ Hid). finish_step.
    + finish_step.
  - destruct (is_Exception x) eqn:X; finish_step.
Qed.

Lemma for_each_process_job_step lim model jt jobs : forall acc w,
  (forall e, fst (for_each jobs (process_job lim model jt) acc w) = Raise e ->
             is_Exception e = false) /\
  (forall b w',
      for_each jobs (process_job lim model jt) acc w = (Ok b, w') ->
      (exists extra,
          b = acc ++ extra /\ length extra <= length jobs /\
          forall r, In r extra ->
                    exists job, In job jobs /\ record_of lim jt job r) /\
      prompts w' = rev (flat_map prompted jobs) ++ prompts w) /\
  requests (snd (for_each jobs (process_job lim model jt) acc w)) = requests w /\
  cache (snd (for_each jobs (process_job lim model jt) acc w)) = cache w /\
  store (snd (for_each jobs (process_job lim model jt) acc w)) = store w.
Proof.
  induction jobs as [|job jobs IH]; intros acc w.
  - cbn. split; [discriminate|]. split; [|auto].
    intros b w' [= <- <-]. split; [|reflexivity].
    exists []. rewrite app_nil_r. split; [reflexivity|]. split; [cbn; lia|].
    intros r [].
  - cbn [for_each]. unfold bind.
    destruct (process_job_step lim model jt job acc w)
      as (E1 & B1 & P1 & R1 & C1 & S1).
    destruct (process_job lim model jt job acc w) as [[b1|x] w1];
      cbn [fst snd] in *.
    + destruct (IH b1 w1) as (E2 & B2 & R2 & C2 & S2).
      split; [exact E2|]. split; [|repeat split; congruence].
      intros b w' H. destruct (B2 _ _ H) as [(extra & -> & L & F) P2].
      split.
      * destruct (B1 b1 eq_refl) as [-> | (r & -> & Hr)].
        -- exists extra. split; [reflexivity|]. split; [cbn; lia|].
           intros r Hin. destruct (F r Hin) as (j & Hj & Hrec).
           exists j. split; [now right | exact Hrec].
        -- exists (r :: extra). rewrite <- app_assoc.
           split; [reflexivity|]. split; [cbn; lia|].
           intros r' [<-|Hin].
           ++ exists job. split; [now left | exact Hr].
           ++ destruct (F r' Hin) as (j & Hj & Hrec).
              exists j. split; [now right | exact Hrec].
      * rewrite P2, P1. cbn [flat_map].
        rewrite rev_app_distr, <- app_assoc.
        replace (rev (prompted job)) with (prompted job); [reflexivity|].
        unfold prompted. repeat break_match; reflexivity.
    + split; [intros e [= <-]; now apply E1|].
      split; [discriminate | auto].
Qed.

(** X8: the loop of [job_search] is never ended by an Exception: whatever
    the job details and the provider's answers, the only exception that
    can leave it is one that is not an Exception (such as a keyboard
    interrupt raised during the provider call). *)
Theorem build_batch_raises_no_Exception
  (lim : nat) (model : GenerativeModel) (jt : Z) (details : list value)
  (w : World) (e : exn) :
  fst (build_batch lim model jt details w) = Raise e ->
  is_Exception e = false.
Proof.
  unfold build_batch.
  destruct (for_each_process_job_step lim model jt details [] w) as (E & _).
  apply E.
Qed.

(** X9: every record of the batch comes from a job detail of the input:
    its Id is the detail's tracking id, Url, Role, company and description
    are the detail's apply URL, title, company name and description text,
    its experience is at most 1 and its JobType is the caller's tag; and
    there is at most one record per detail. *)
Theorem build_batch_records
  (lim : nat) (model : GenerativeModel) (jt : Z) (details : list value)
  (w w' : World) (batch : list JobRecord) :
  build_batch lim model jt details w = (Ok batch, w') ->
  length batch <= length details /\
  forall r, In r batch ->
            exists job, In job details /\ record_of lim jt job r.
Proof.
  unfold build_batch. intros H.
  destruct (for_each_process_job_step lim model jt details [] w) as (_ & B & _).
  destruct (B _ _ H) as [(extra & -> & L & F) _]. cbn [app]. now split.
Qed.

(** X10: the loop asks the generative provider once for each job detail
    that has its four fields, in the order of the details, and for no
    other; it makes no request to the job-search provider and leaves the
    cache and the store as they were. *)
Theorem build_batch_effects
  (lim : nat) (model : GenerativeModel) (jt : Z) (details : list value)
  (w w' : World) (batch : list JobRecord) :
  build_batch lim model jt details w = (Ok batch, w') ->
  prompts w' = rev (flat_map prompted details) ++ prompts w /\
  requests w' = requests w /\ cache w' = cache w /\ store w' = store w.
Proof.
  unfold build_batch. intros H.
  destruct (for_each_process_job_step lim model jt details [] w)
    as (_ & B & R & C & S).
  rewrite H in R, C, S. cbn [snd] in *.
  destruct (B _ _ H) as [_ P]. auto.
Qed.

Lemma build_batch_raises_no_Exception_witness :
  is_Exception Interrupt = false.
Proof.
  apply (build_batch_raises_no_Exception default_max_str_digits
           interrupted_model 1
           [detail "1" "Junior developer" "No experience needed"]
           empty_world Interrupt).
  reflexivity.
Defined.

Lemma build_batch_records_witness :
  length [sample_record; intern_record] <= 2 /\
  forall r, In r [sample_record; intern_record] ->
            exists job,
              In job [detail "1" "Junior developer" "No experience needed";
                      detail "3" "Intern" "Students welcome"] /\
              record_of default_max_str_digits 1 job r.
Proof.
  exact (build_batch_records default_max_str_digits (constant_model "0") 1
           [detail "1" "Junior developer" "No experience needed";
            detail "3" "Intern" "Students welcome"]
           empty_world
           (log_prompt (VStr (lit "Students welcome"))
              (log_prompt (VStr (lit "No experience needed")) empty_world))
           [sample_record; intern_record] eq_refl).
Defined.

Lemma build_batch_effects_witness :
  prompts (snd (build_batch default_max_str_digits (constant_model "0") 1
                  [detail "1" "Junior developer" "No experience needed";
                   detail_without_url "2" "Tester" "No experience needed";
                   detail "3" "Intern" "Students welcome"] empty_world))
  = [VStr (lit "Students welcome"); VStr (lit "No experience needed")].
Proof.
  apply (build_batch_effects default_max_str_digits (constant_model "0") 1
           [detail "1" "Junior developer" "No experience needed";
            detail_without_url "2" "Tester" "No experience needed";
            detail "3" "Intern" "Students welcome"]
           empty_world
           (snd (build_batch default_max_str_digits (constant_model "0") 1
                  [detail "1" "Junior developer" "No experience needed";
                   detail_without_url "2" "Tester" "No experience needed";
                   detail "3" "Intern" "Students welcome"] empty_world))
           [sample_record; intern_record]).
  reflexivity.
Defined.

(** ** [batch_insert_jobs] and [job_search]: the table *)

Lemma batch_insert_jobs_returns batch w :
  fst (batch_insert_jobs batch w) = Ok tt.
Proof.
  unfold batch_insert_jobs, try_catch, bind, executemany, commit, print.
  destruct (key_ok (store w) batch); reflexivity.
Qed.

Lemma distinct_no_common l1 : forall l2 i,
  distinct (l1 ++ l2) = true -> In i l1 -> In i l2 -> False.
Proof.
  induction l1 as [|a l1 IH]; intros l2 i H H1 H2; [destruct H1|].
  cbn [app distinct] in H. apply andb_true_iff in H as [Ha H].
  destruct H1 as [->|H1]; [|now apply (IH l2 i)].
  apply negb_true_iff in Ha.
  assert (T : existsb (Z.eqb i) (l1 ++ l2) = true).
  { apply existsb_exists. exists i. split; [|apply Z.eqb_refl].
    apply in_or_app. now right. }
  congruence.
Qed.

Lemma distinct_app_r l1 : forall l2,
  distinct (l1 ++ l2) = true -> distinct l2 = true.
Proof.
  induction l1 as [|a l1 IH]; intros l2 H; [exact H|].
  cbn [app distinct] in H. apply andb_true_iff in H as [_ H]. now apply IH.
Qed.

(** X11: a batch in which two records have the same Id is refused as a
    whole, whatever the table holds: nothing is stored and the error is
    printed. *)
Theorem batch_with_repeated_id_is_refused
  (batch : list JobRecord) (w : World) :
  distinct (map Id batch) = false ->
  batch_insert_jobs batch w = (Ok tt, logged (ErrorBatchInsert MysqlError) w).
Proof.
  intros H.
  assert (K : key_ok (store w) batch = false).
  { unfold key_ok.
    destruct (distinct (map Id (committed (store w) ++ staged (store w) ++ batch)))
      eqn:E; [|reflexivity].
    rewrite !map_app, app_assoc in E. apply distinct_app_r in E. congruence. }
  unfold batch_insert_jobs, try_catch, bind, executemany. now rewrite K.
Qed.

Lemma batch_with_repeated_id_is_refused_witness :
  batch_insert_jobs [intern_record; sample_record; intern_record] empty_world
  = (Ok tt, logged (ErrorBatchInsert MysqlError) empty_world).
Proof.
  apply (batch_with_repeated_id_is_refused
           [intern_record; sample_record; intern_record] empty_world).
  reflexivity.
Defined.

(** X24: a batch that holds a record whose Id is already in the table is
    refused as a whole: none of its records is stored, not even those
    with a new Id. *)
Theorem batch_with_stored_id_is_refused
  (batch : list JobRecord) (r : JobRecord) (w : World) :
  In r batch ->
  In (Id r) (map Id (committed (store w))) ->
  batch_insert_jobs batch w = (Ok tt, logged (ErrorBatchInsert MysqlError) w).
Proof.
  intros Hr Hid.
  assert (K : key_ok (store w) batch = false).
  { unfold key_ok.
    destruct (distinct (map Id (committed (store w) ++ staged (store w) ++ batch)))
      eqn:E; [|reflexivity].
    exfalso. rewrite map_app in E.
    apply (distinct_no_common _ _ (Id r) E Hid).
    rewrite map_app. apply in_or_app. right. now apply in_map. }
  unfold batch_insert_jobs, try_catch, bind, executemany. now rewrite K.
Qed.

Lemma batch_with_stored_id_is_refused_witness :
  batch_insert_jobs [intern_record; sample_record] stocked_world
  = (Ok tt, logged (ErrorBatchInsert MysqlError) stocked_world).
Proof.
  apply (batch_with_stored_id_is_refused [intern_record; sample_record]
           sample_record stocked_world).
  - right. left. reflexivity.
  - left. reflexivity.
Defined.

(** X12: inserting the same non-empty batch a second time changes
    nothing: after the first call, accepted or not, the second one is
    refused and leaves the store as the first call left it. *)
Theorem batch_insert_twice (batch : list JobRecord) (w : World) :
  batch <> [] ->
  store (snd (batch_insert_jobs batch (snd (batch_insert_jobs batch w))))
  = store (snd (batch_insert_jobs batch w)) /\
  stdout (snd (batch_insert_jobs batch (snd (batch_insert_jobs batch w))))
  = ErrorBatchInsert MysqlError :: stdout (snd (batch_insert_jobs batch w)).
Proof.
  intros Hne.
  assert (K : key_ok (store (snd (batch_insert_jobs batch w))) batch = false).
  { rewrite batch_insert_jobs_store.
    destruct (key_ok (store w) batch) eqn:E; [|exact E].
    unfold key_ok. cbn [committed staged app].
    match goal with |- ?x = false => destruct x eqn:D; [|reflexivity] end.
    exfalso.
    destruct batch as [|r batch]; [congruence|].
    rewrite map_app in D.
    apply (distinct_no_common _ _ (Id r) D).
    - rewrite !map_app. apply in_or_app. right. apply in_or_app. right. now left.
    - now left. }
  set (w1 := snd (batch_insert_jobs batch w)) in *.
  unfold batch_insert_jobs, try_catch, bind, executemany.
  rewrite K. now split.
Qed.

Lemma batch_insert_twice_witness :
  store (snd (batch_insert_jobs [sample_record]
                (snd (batch_insert_jobs [sample_record] empty_world))))
  = store (snd (batch_insert_jobs [sample_record] empty_world)).
Proof.
  apply (batch_insert_twice [sample_record] empty_world). discriminate.
Defined.

Lemma build_batch_store lim model jt details w :
  store (snd (build_batch lim model jt details w)) = store w.
Proof.
  unfold build_batch.
  now destruct (for_each_process_job_step lim model jt details [] w)
    as (_ & _ & _ & _ & S).
Qed.

(** X13: an exception leaves [job_search] only if the parallel fetch
    raised it or if it is not an Exception; a refused insert and per-job
    errors never do. *)
Theorem job_search_raises
  (lim : nat) (schedule : list nat) (api : Linkedin) (jobs : list value)
  (model : GenerativeModel) (jt : Z) (w : World) (e : exn) :
  fst (job_search lim schedule api jobs model jt w) = Raise e ->
  fst (parallel_job_search schedule api jobs w) = Raise e \/ is_Exception e = false.
Proof.
  unfold job_search, bind.
  destruct (parallel_job_search schedule api jobs w) as [[details|x] w1];
    [|intros [= <-]; now left].
  pose proof (Hloop :=
                for_each_process_job_step lim model jt details [] w1).
  destruct Hloop as (E & _).
  unfold build_batch.
  destruct (for_each details (process_job lim model jt) [] w1)
    as [[batch|x] w2]; cbn [fst] in *.
  - destruct batch as [|r rs]; [discriminate|].
    rewrite batch_insert_jobs_returns. discriminate.
  - intros [= <-]. right. now apply E.
Qed.

Lemma job_search_raises_witness :
  fst (parallel_job_search in_turns sample_api [summary "1"; summary "2"]
         empty_world)
    = Raise (ProviderError "HTTP 500") \/
  is_Exception (ProviderError "HTTP 500") = false.
Proof.
  apply (job_search_raises default_max_str_digits in_turns sample_api
           [summary "1"; summary "2"] (constant_model "0") 1 empty_world).
  reflexivity.
Defined.

(** What a run of [job_search] may do to the table. *)
Lemma job_search_table lim schedule api jobs model jt w :
  (exists added,
      committed (store (snd (job_search lim schedule api jobs model jt w)))
      = committed (store w) ++ added /\
      (staged (store w) = [] ->
       forallb (fun r => (Experience r <=? 1)%Z && (JobType r =? jt)%Z) added
       = true)) /\
  (staged (store w) = [] ->
   staged (store (snd (job_search lim schedule api jobs model jt w))) = []) /\
  (key_ok (store w) [] = true ->
   key_ok (store (snd (job_search lim schedule api jobs model jt w))) [] = true).
Proof.
  assert (Nil : forall s : Store,
            (exists added, committed s = committed s ++ added /\
               (staged s = [] ->
                forallb (fun r => (Experience r <=? 1)%Z && (JobType r =? jt)%Z)
                  added = true)) /\
            (staged s = [] -> staged s = []) /\
            (key_ok s [] = true -> key_ok s [] = true)).
  { intros s. split; [|auto]. exists []. now rewrite app_nil_r. }
  unfold job_search, bind.
  pose proof (parallel_job_search_store schedule api jobs w) as S1.
  destruct (parallel_job_search schedule api jobs w) as [[details|x] w1];
    cbn [snd] in *; [|rewrite S1; apply Nil].
  pose proof (build_batch_store lim model jt details w1) as S2.
  destruct (build_batch lim model jt details w1) as [[batch|x] w2] eqn:B;
    cbn [snd] in *; [|rewrite S2, S1; apply Nil].
  destruct batch as [|r rs].
  - cbn. rewrite S2, S1. apply Nil.
  - rewrite batch_insert_jobs_store, S2, S1.
    destruct (key_ok (store w) (r :: rs)) eqn:K; [|apply Nil].
    cbn [committed staged]. split; [|split].
    + eexists. split; [reflexivity|]. intros ->. cbn [app].
      apply forallb_forall. intros r' Hin.
      unfold build_batch in B.
      destruct (for_each_process_job_step lim model jt details [] w1)
        as (_ & Hb & _).
      destruct (Hb _ _ B) as [(extra & E & _ & F) _]. cbn [app] in E.
      rewrite <- E in F. destruct (F r' Hin) as (job & _ & Hrec).
      destruct Hrec as (_ & _ & _ & _ & _ & He & Ht).
      apply andb_true_iff. split; [now apply Z.leb_le | now apply Z.eqb_eq].
    + reflexivity.
    + intros _. unfold key_ok in *. cbn [committed staged].
      now rewrite !app_nil_r.
Qed.

(** X14: [job_search] never removes or changes a stored row, and it keeps
    the primary key: if no two rows of the table and of the open
    transaction share an Id before, none do after. *)
Theorem job_search_keeps_table
  (lim : nat) (schedule : list nat) (api : Linkedin) (jobs : list value)
  (model : GenerativeModel) (jt : Z) (w : World) :
  (exists added,
      committed (store (snd (job_search lim schedule api jobs model jt w)))
      = committed (store w) ++ added) /\
  (key_ok (store w) [] = true ->
   key_ok (store (snd (job_search lim schedule api jobs model jt w))) [] = true).
Proof.
  destruct (job_search_table lim schedule api jobs model jt w)
    as ((added & E & _) & _ & K).
  split; [now exists added | exact K].
Qed.

Lemma job_search_keeps_table_witness :
  key_ok (store (snd (job_search default_max_str_digits in_turns sample_api
                        [summary "1"; summary "3"] (constant_model "0") 1
                        stocked_world))) [] = true.
Proof.
  apply (proj2 (job_search_keeps_table default_max_str_digits in_turns
                  sample_api [summary "1"; summary "3"] (constant_model "0") 1
                  stocked_world)).
  reflexivity.
Defined.

(** ** [get_job_details]: more on the cache *)

(** X15: a call that raises is not memoised: the cache is left as it was,
    and the next call with the same job id asks the provider again. *)
Theorem get_job_details_failure_not_cached
  (api : Linkedin) (job_id : text) (w w1 : World) (e : exn) :
  get_job_details api job_id w = (Raise e, w1) ->
  cache w1 = cache w /\
  requests w1 = job_id :: requests w /\
  requests (snd (get_job_details api job_id w1))
  = job_id :: job_id :: requests w.
Proof.
  unfold get_job_details at 1.
  destruct (cache_find job_id (cache w)) as [v|] eqn:F; [discriminate|].
  destruct (get_job api (requests w) job_id) as [v|x]; [discriminate|].
  intros [= <- <-]. split; [reflexivity|]. split; [reflexivity|].
  unfold get_job_details. cbn [cache log_request]. rewrite F.
  destruct (get_job api (requests (log_request job_id w)) job_id); reflexivity.
Qed.

Lemma get_job_details_failure_not_cached_witness :
  requests (snd (get_job_details sample_api (lit "2")
                   (log_request (lit "2") empty_world)))
  = [lit "2"; lit "2"].
Proof.
  apply (get_job_details_failure_not_cached sample_api (lit "2") empty_world
           (log_request (lit "2") empty_world) (ProviderError "HTTP 500")).
  reflexivity.
Defined.

Lemma cache_find_remove_other k k' c :
  k' <> k -> cache_find k' (cache_remove k c) = cache_find k' c.
Proof.
  intros H. induction c as [|[k0 v0] c IH]; [reflexivity|].
  cbn [cache_remove filter fst]. fold (cache_remove k c).
  destruct (text_eqb k k0) eqn:E; cbn [negb].
  - apply text_eqb_eq in E. subst k0. cbn [cache_find].
    now rewrite text_eqb_neq by exact H.
  - cbn [cache_find]. now rewrite IH.
Qed.

(** X16: a call served from the cache changes no association: after it,
    every job id is cached with the value it had before, and nothing has
    been requested. *)
Theorem get_job_details_hit_keeps_entries
  (api : Linkedin) (job_id : text) (v : value) (w : World) :
  cache_find job_id (cache w) = Some v ->
  (forall k, cache_find k (cache (snd (get_job_details api job_id w)))
             = cache_find k (cache w)) /\
  requests (snd (get_job_details api job_id w)) = requests w.
Proof.
  intros H. rewrite (get_job_details_hit api job_id v w H).
  cbn [snd set_cache cache requests]. split; [|reflexivity].
  intros k. cbn [cache_find].
  destruct (text_eqb k job_id) eqn:E.
  - apply text_eqb_eq in E. now subst.
  - apply cache_find_remove_other. intros ->.
    now rewrite text_eqb_refl in E.
Qed.

Lemma cache_find_none_keys k c :
  cache_find k c = None <-> ~ In k (map fst c).
Proof.
  induction c as [|[k0 v0] c IH]; cbn; [tauto|].
  destruct (text_eqb k k0) eqn:E.
  - apply text_eqb_eq in E. subst. split; [discriminate | tauto].
  - rewrite IH. split.
    + intros H [<-|Hin]; [now rewrite text_eqb_refl in E | tauto].
    + tauto.
Qed.

Lemma NoDup_firstn {A : Type} n (l : list A) : NoDup l -> NoDup (firstn n l).
Proof.
  revert n. induction l as [|a l IH]; intros [|n] H; cbn; try constructor.
  - inversion H as [|? ? Ha Hl]; subst. intros Hin. apply Ha.
    rewrite <- (firstn_skipn n l). apply in_or_app. now left.
  - inversion H; subst. now apply IH.
Qed.

Lemma cache_remove_not_in k c : ~ In k (map fst (cache_remove k c)).
Proof.
  unfold cache_remove. rewrite in_map_iff. intros ([k0 v0] & <- & Hin).
  apply filter_In in Hin as [_ Hk]. cbn in Hk.
  now rewrite text_eqb_refl in Hk.
Qed.

Lemma cache_remove_NoDup k c :
  NoDup (map fst c) -> NoDup (map fst (cache_remove k c)).
Proof.
  induction c as [|[k0 v0] c IH]; cbn; [auto|].
  intros H. inversion H as [|? ? Hk Hc]; subst.
  destruct (negb (text_eqb k k0)); cbn; [|now apply IH].
  constructor; [|now apply IH].
  intros Hin. apply Hk. eapply cache_remove_keys; eauto.
Qed.

(** X17: the cache never holds two entries for one job id: if its keys are
    distinct before a call of [get_job_details], they are distinct after
    it. *)
Theorem get_job_details_keeps_keys_distinct
  (api : Linkedin) (job_id : text) (w : World) :
  NoDup (map fst (cache w)) ->
  NoDup (map fst (cache (snd (get_job_details api job_id w)))).
Proof.
  intros H. unfold get_job_details.
  destruct (cache_find job_id (cache w)) as [v|] eqn:F.
  - cbn. constructor; [apply cache_remove_not_in | now apply cache_remove_NoDup].
  - destruct (get_job api (requests w) job_id) as [v|x]; [|exact H].
    cbn [snd set_cache cache log_request].
    rewrite <- firstn_map. apply NoDup_firstn. cbn.
    constructor; [now apply cache_find_none_keys | exact H].
Qed.

Lemma get_job_details_hit_keeps_entries_witness :
  requests (snd (get_job_details sample_api (lit "1")
                   (snd (get_job_details sample_api (lit "1") empty_world))))
  = requests (snd (get_job_details sample_api (lit "1") empty_world)).
Proof.
  apply (get_job_details_hit_keeps_entries sample_api (lit "1")
           (detail "1" "Junior developer" "No experience needed")
           (snd (get_job_details sample_api (lit "1") empty_world))).
  reflexivity.
Defined.

Lemma get_job_details_keeps_keys_distinct_witness :
  NoDup (map fst (cache (snd (get_job_details sample_api (lit "3")
                                (snd (get_job_details sample_api (lit "1")
                                        empty_world)))))).
Proof.
  apply (get_job_details_keeps_keys_distinct sample_api (lit "3")
           (snd (get_job_details sample_api (lit "1") empty_world))).
  cbn. constructor; [intros [] | constructor].
Defined.

(** X18: when the cache is full, a call for a job id that is not cached
    and whose fetch returns evicts the least recently used entry and keeps
    all the others; the evicted job is requested again at its next call. *)
Theorem get_job_details_evicts_oldest
  (api : Linkedin) (job_id old : text) (v v_old : value)
  (front : list (text * value)) (w : World) :
  cache w = front ++ [(old, v_old)] ->
  length front = maxsize - 1 ->
  cache_find old front = None ->
  cache_find job_id (cache w) = None ->
  get_job api (requests w) job_id = Ok v ->
  cache (snd (get_job_details api job_id w)) = (job_id, v) :: front /\
  cache_find old (cache (snd (get_job_details api job_id w))) = None /\
  requests (snd (get_job_details api old (snd (get_job_details api job_id w))))
  = old :: job_id :: requests w.
Proof.
  intros Hc Hlen Hold Hmiss Hget.
  assert (Hne : text_eqb old job_id = false).
  { apply text_eqb_neq. intros ->. rewrite Hc in Hmiss.
    rewrite cache_find_front in Hmiss by now apply cache_find_none_keys.
    cbn in Hmiss. now rewrite text_eqb_refl in Hmiss. }
  assert (C : cache (snd (get_job_details api job_id w)) = (job_id, v) :: front).
  { unfold get_job_details. rewrite Hmiss, Hget.
    cbn [snd set_cache cache log_request]. rewrite Hc.
    assert (L : length front = 999) by exact Hlen.
    change maxsize with (S 999). rewrite firstn_cons. f_equal.
    rewrite firstn_app, L, Nat.sub_diag, firstn_O.
    rewrite firstn_all2 by (rewrite L; constructor). apply app_nil_r. }
  assert (F : cache_find old (cache (snd (get_job_details api job_id w))) = None).
  { rewrite C. cbn [cache_find]. now rewrite Hne. }
  split; [exact C|]. split; [exact F|].
  assert (R : requests (snd (get_job_details api job_id w)) = job_id :: requests w).
  { unfold get_job_details. now rewrite Hmiss, Hget. }
  unfold get_job_details at 1. rewrite F, R.
  destruct (get_job api (job_id :: requests w) old); cbn; now rewrite R.
Qed.

Lemma get_job_details_evicts_oldest_witness :
  cache_find (lit "old")
    (cache (snd (get_job_details sample_api (lit "1") full_world))) = None.
Proof.
  apply (get_job_details_evicts_oldest sample_api (lit "1") (lit "old")
           (detail "1" "Junior developer" "No experience needed") (VInt 7)
           recent_entries full_world).
  - reflexivity.
  - vm_compute. reflexivity.
  - vm_compute. reflexivity.
  - vm_compute. reflexivity.
  - reflexivity.
Defined.

(** *** The worker pool: where the results come from *)

Lemma cache_find_In id v c : cache_find id c = Some v -> In (id, v) c.
Proof.
  induction c as [|[k d] c IH]; [discriminate|].
  cbn [cache_find]. destruct (text_eqb id k) eqn:E.
  - apply text_eqb_eq in E. intros [= ->]. subst k. now left.
  - intros H. right. now apply IH.
Qed.

Lemma firstn_incl {A : Type} n (l : list A) x : In x (firstn n l) -> In x l.
Proof.
  revert l. induction n as [|n IH]; intros [|y l] H; try contradiction.
  cbn [firstn] in H. destruct H as [->|H]; [now left | right; now apply IH].
Qed.

Lemma fetched_mono api w w1 w2 id d ext :
  requests w2 = ext ++ requests w1 ->
  fetched api w w1 id d -> fetched api w w2 id d.
Proof.
  intros Hr [Hin|(earlier & later & Hget & Hreq)]; [now left|].
  right. exists earlier, (ext ++ later). split; [exact Hget|].
  now rewrite Hr, Hreq, app_assoc.
Qed.

Lemma task_of_mono api w w1 w2 ext job t :
  requests w2 = ext ++ requests w1 ->
  task_of api w w1 job t -> task_of api w w2 job t.
Proof.
  intros Hr. destruct t as [job'|id|id v|[v|e]|]; cbn [task_of]; auto.
  - intros [Hid Hf]. split; [exact Hid|]. eapply fetched_mono; eauto.
  - intros (id & Hid & Hf). exists id. split; [exact Hid|].
    eapply fetched_mono; eauto.
Qed.

Lemma Forall2_through {A B C : Type} (R : A -> B -> Prop) (S : B -> C -> Prop)
  (T : A -> C -> Prop) :
  (forall a b c, R a b -> S b c -> T a c) ->
  forall la lb lc, Forall2 R la lb -> Forall2 S lb lc -> Forall2 T la lc.
Proof.
  intros H la lb lc HR. revert lc.
  induction HR as [|a b la lb Hab HR IH]; intros lc HS; inversion HS; subst.
  - constructor.
  - constructor; eauto.
Qed.

Lemma fetching_task api jobs w pre t post w1 :
  fetching api jobs w (pre ++ t :: post) w1 ->
  exists job, task_of api w w1 job t.
Proof.
  intros (_ & Hf & _).
  apply Forall2_app_inv_r in Hf as (jpre & jrest & _ & Hrest & _).
  inversion Hrest as [|j t0 jpost post0 Hj Hpost]; subst. now exists j.
Qed.

Lemma fetching_step api jobs w pre t post w1 t' w2 ext :
  fetching api jobs w (pre ++ t :: post) w1 ->
  requests w2 = ext ++ requests w1 ->
  (forall job, task_of api w w1 job t -> task_of api w w2 job t') ->
  (forall id d, In (id, d) (cache w2) ->
                In (id, d) (cache w1) \/ fetched api w w2 id d) ->
  fetching api jobs w (pre ++ t' :: post) w2.
Proof.
  intros ([new Hnew] & Hf & Hc) Hr Ht Hcache. split; [|split].
  - exists (ext ++ new). now rewrite Hr, Hnew, app_assoc.
  - apply Forall2_app_inv_r in Hf as (jpre & jrest & Hpre & Hrest & ->).
    inversion Hrest as [|j t0 jpost post0 Hj Hpost]; subst.
    apply Forall2_app; [|constructor].
    + eapply Forall2_impl; [|exact Hpre].
      intros a b. now apply (task_of_mono api w w1 w2 ext).
    + now apply Ht.
    + eapply Forall2_impl; [|exact Hpost].
      intros a b. now apply (task_of_mono api w w1 w2 ext).
  - intros id d Hin. destruct (Hcache id d Hin) as [H|H]; [|exact H].
    apply (fetched_mono api w w1 w2 id d ext Hr). now apply Hc.
Qed.

Lemma fetching_advance api jobs w pre t post w1 :
  fetching api jobs w (pre ++ t :: post) w1 ->
  fetching api jobs w (pre ++ fst (advance api t w1) :: post)
    (snd (advance api t w1)).
Proof.
  intros H. pose proof H as ([new Hnew] & _ & Hc).
  destruct (fetching_task _ _ _ _ _ _ _ H) as [j0 Hj0].
  advance_cases api t w1; cbn [fst snd].
  - (* the job is in the cache *)
    apply (fetching_step _ _ _ pre _ post w1 _ _ [] H); [reflexivity| |].
    + cbn [task_of]. intros j ->. exists id. split; [exact Hid|].
      apply (fetched_mono api w w1 _ id v []); [reflexivity|].
      now apply Hc, cache_find_In.
    + cbn [set_cache cache]. intros id' d [E|Hin].
      * injection E as <- <-. left. now apply cache_find_In.
      * left. unfold cache_remove in Hin. now apply filter_In in Hin.
  - (* the job is not in the cache *)
    apply (fetching_step _ _ _ pre _ post w1 _ _ [] H); [reflexivity| |auto].
    cbn [task_of]. now intros j ->.
  - (* the job has no id *)
    apply (fetching_step _ _ _ pre _ post w1 _ _ [] H); [reflexivity| |auto].
    cbn [task_of]. auto.
  - (* the provider answers *)
    apply (fetching_step _ _ _ pre _ post w1 _ _ [id] H); [reflexivity| |].
    + cbn [task_of]. intros j Hj. split; [exact Hj|].
      right. exists new, []. split; [now rewrite <- Hnew|].
      cbn [log_request requests app]. now rewrite Hnew.
    + cbn [log_request cache]. auto.
  - (* the provider raises *)
    apply (fetching_step _ _ _ pre _ post w1 _ _ [id] H); [reflexivity| |].
    + cbn [task_of]. auto.
    + cbn [log_request cache]. auto.
  - (* the answer is stored *)
    cbn [task_of] in Hj0. destruct Hj0 as [_ Hv].
    pose proof (proj1 (cache_store_frame id v w1)) as Hr.
    apply (fetching_step _ _ _ pre _ post w1 _ _ [] H); [exact Hr| |].
    + cbn [task_of]. intros j [Hj Hf]. exists id. split; [exact Hj|].
      now apply (fetched_mono api w w1 _ id v [] Hr).
    + intros id' d. unfold cache_store.
      destruct (cache_find id (cache w1)); [now left|].
      cbn [set_cache cache]. intros Hin. apply firstn_incl in Hin.
      destruct Hin as [E|Hin]; [|now left].
      injection E as <- <-. right.
      eapply (fetched_mono api w w1 _ id v []); [reflexivity | exact Hv].
  - exact H.
  - exact H.
Qed.

Lemma fetching_cancel api jobs w pre job post w1 :
  fetching api jobs w (pre ++ Queued job :: post) w1 ->
  fetching api jobs w (pre ++ Cancelled :: post) w1.
Proof.
  intros H.
  apply (fetching_step _ _ _ pre _ post w1 _ _ [] H); [reflexivity| |auto].
  cbn [task_of]. auto.
Qed.

Lemma fetching_start api jobs w : fetching api jobs w (map Queued jobs) w.
Proof.
  split; [now exists []|]. split; [|now left].
  induction jobs as [|job js IH]; constructor; [reflexivity | exact IH].
Qed.

Lemma counting_advance api jobs w pre t post w1 :
  counting jobs w (pre ++ t :: post) w1 ->
  counting jobs w (pre ++ fst (advance api t w1) :: post)
    (snd (advance api t w1)).
Proof.
  intros (new & Hnew & Hlen).
  rewrite filter_app, length_app in Hlen. unfold counting.
  setoid_rewrite filter_app. setoid_rewrite length_app.
  advance_cases api t w1; cbn [fst snd filter pending length] in *;
    try (exists new; split; [first [exact Hnew | now rewrite (proj1 (cache_store_frame _ _ _))] | lia]);
    exists (id :: new); cbn [log_request requests length app];
    (split; [now rewrite Hnew | lia]).
Qed.

Lemma counting_cancel jobs w pre job post w1 :
  counting jobs w (pre ++ Queued job :: post) w1 ->
  counting jobs w (pre ++ Cancelled :: post) w1.
Proof.
  intros (new & Hnew & Hlen). exists new. split; [exact Hnew|].
  rewrite filter_app, length_app in *. cbn [filter pending length] in *. lia.
Qed.

Lemma counting_start jobs w : counting jobs w (map Queued jobs) w.
Proof.
  exists []. split; [reflexivity|]. cbn [length plus].
  induction jobs as [|job js IH]; cbn [map filter pending length]; lia.
Qed.

(** ** [parallel_job_search]: the results *)

(** The details returned are those of the jobs, each fetched for its job. *)
Lemma parallel_job_search_fetched schedule api jobs w w' details :
  parallel_job_search schedule api jobs w = (Ok details, w') ->
  Forall2 (fun job d =>
             exists id, job_id_of job = Ok id /\ fetched api w w' id d)
          jobs details.
Proof.
  unfold parallel_job_search, executor_map. intros [= Hc Hw].
  fold (pool_tasks schedule api jobs w) in Hc.
  pose proof (pool_inv api (fetching api jobs w)
                (fetching_advance api jobs w) (fetching_cancel api jobs w)
                schedule jobs w (fetching_start api jobs w)) as (_ & Hf & _).
  rewrite Hw in Hf. apply collect_ok in Hc.
  eapply Forall2_through; [|exact Hf|exact Hc].
  intros job t d Ht ->. exact Ht.
Qed.

(** X19: when [parallel_job_search] returns, whatever the order in which
    the workers ran, it returns one detail per job, in the order of the
    jobs; the detail of a job is the entry of its id in the cache at the
    start, or the answer of the provider to a request for that id made
    during the call.  At most one request per job was made, and the model,
    the printed lines and the store are as before. *)
Theorem parallel_job_search_results
  (schedule : list nat) (api : Linkedin) (jobs : list value) (w w' : World)
  (details : list value) :
  parallel_job_search schedule api jobs w = (Ok details, w') ->
  Forall2 (fun job d =>
             exists id, job_id_of job = Ok id /\ fetched api w w' id d)
          jobs details /\
  (exists new,
      requests w' = new ++ requests w /\ length new <= length jobs) /\
  prompts w' = prompts w /\
  stdout w' = stdout w /\
  store w' = store w.
Proof.
  intros H. split; [now apply (parallel_job_search_fetched schedule)|].
  revert H. unfold parallel_job_search, executor_map. intros [= _ Hw].
  split.
  - pose proof (pool_inv api (counting jobs w)
                  (counting_advance api jobs w) (counting_cancel jobs w)
                  schedule jobs w (counting_start jobs w))
      as (new & Hnew & Hlen).
    rewrite Hw in Hnew. exists new. split; [exact Hnew | lia].
  - rewrite <- Hw.
    apply (pool_inv api (fun _ w1 => prompts w1 = prompts w /\
                                     stdout w1 = stdout w /\
                                     store w1 = store w)).
    + intros pre t post w1 (Hp & Ho & Hs).
      destruct (advance_frame api t w1) as (Hp' & Hs' & Ho').
      repeat split; congruence.
    + intros pre job post w1 H. exact H.
    + now repeat split.
Qed.

Lemma parallel_job_search_results_witness :
  Forall2 (fun job d =>
             exists id,
               job_id_of job = Ok id /\
               fetched sample_api empty_world
                 (snd (parallel_job_search in_turns sample_api
                         [summary "1"; summary "3"] empty_world)) id d)
          [summary "1"; summary "3"]
          [detail "1" "Junior developer" "No experience needed";
           detail "3" "Intern" "Students welcome"].
Proof.
  apply (parallel_job_search_results in_turns sample_api
           [summary "1"; summary "3"] empty_world
           (snd (parallel_job_search in_turns sample_api
                   [summary "1"; summary "3"] empty_world))
           [detail "1" "Junior developer" "No experience needed";
            detail "3" "Intern" "Students welcome"]).
  reflexivity.
Defined.

Lemma Forall2_nth_error {A B : Type} (R : A -> B -> Prop) la lb :
  Forall2 R la lb ->
  forall k a, nth_error la k = Some a ->
  exists b, nth_error lb k = Some b /\ R a b.
Proof.
  induction 1 as [|a0 b0 la lb Hab HR IH]; intros k a Hk.
  - destruct k; discriminate Hk.
  - destruct k as [|k]; cbn [nth_error] in *.
    + injection Hk as <-. now exists b0.
    + now apply IH.
Qed.

(** X26: a job that cannot be fetched fails the whole batch, whatever the
    order in which the workers ran.  When a job of the batch has no
    tracking id, or has one that is not in the cache and for which the
    provider raises whenever it is asked, [parallel_job_search] raises, and
    so does [job_search]. *)
Theorem refused_job_fails_the_fetch
  (schedule : list nat) (api : Linkedin) (jobs : list value) (w : World)
  (k : nat) (job : value) :
  nth_error jobs k = Some job ->
  (forall id,
      job_id_of job = Ok id ->
      (forall d, ~ In (id, d) (cache w)) /\
      (forall reqs d, get_job api reqs id <> Ok d)) ->
  exists e,
    fst (parallel_job_search schedule api jobs w) = Raise e /\
    forall lim model jt,
      fst (job_search lim schedule api jobs model jt w) = Raise e.
Proof.
  intros Hk Hrefused.
  destruct (parallel_job_search schedule api jobs w) as [[details|e] w']
    eqn:P.
  - exfalso.
    pose proof (parallel_job_search_fetched schedule api jobs w w' details P)
      as Hf.
    destruct (Forall2_nth_error _ _ _ Hf k job Hk)
      as (d & _ & id & Hid & Hfetched).
    destruct (Hrefused id Hid) as [Hcache Hget].
    destruct Hfetched as [Hin|(earlier & later & Hanswer & _)].
    + now apply (Hcache d).
    + exact (Hget _ d Hanswer).
  - exists e. split; [reflexivity|].
    intros lim model jt. unfold job_search, bind. now rewrite P.
Qed.

Lemma refused_job_fails_the_fetch_witness :
  exists e,
    fst (parallel_job_search round_robin sample_api
           [summary "1"; summary "2"; summary "3"] empty_world) = Raise e /\
    forall lim model jt,
      fst (job_search lim round_robin sample_api
             [summary "1"; summary "2"; summary "3"] model jt empty_world)
      = Raise e.
Proof.
  apply (refused_job_fails_the_fetch round_robin sample_api
           [summary "1"; summary "2"; summary "3"] empty_world 1
           (summary "2")).
  - reflexivity.
  - intros id Hid. injection Hid as <-. split.
    + intros d [].
    + intros reqs d. discriminate.
Defined.

(** ** [parallel_job_search]: a single job *)

(** The three steps of a task, taken without another task in between, are
    one call of [fetch_job_data]. *)
Lemma complete_fetch_job_data api job w :
  complete api (Queued job) w
  = (Finished (fst (fetch_job_data api job w)),
     snd (fetch_job_data api job w)).
Proof.
  rewrite complete_queued. unfold fetch_job_data, bind, lift, job_id_of.
  destruct (rbind (getitem job "trackingUrn") last_segment) as [id|e];
    [|reflexivity].
  unfold get_job_details.
  destruct (cache_find id (cache w)) as [v|] eqn:Hfind; [reflexivity|].
  rewrite complete_looked.
  destruct (get_job api (requests w) id) as [v|e]; [|reflexivity].
  unfold cache_store. cbn [log_request cache]. now rewrite Hfind.
Qed.

Lemma advance_complete api t w :
  complete api (fst (advance api t w)) (snd (advance api t w))
  = complete api t w.
Proof.
  destruct t as [job|id|id v|r|]; try reflexivity.
  - rewrite complete_queued, advance_queued.
    destruct (job_id_of job) as [id|e]; [|reflexivity].
    now destruct (cache_find id (cache w)).
  - rewrite complete_looked, advance_looked.
    now destruct (get_job api (requests w) id).
Qed.

Lemma single_task_run api schedule : forall t w,
  live t = true ->
  exists t' w',
    fold_left (step api) schedule ([t], w) = ([t'], w') /\
    live t' = true /\
    complete api t' w' = complete api t w.
Proof.
  induction schedule as [|i schedule IH]; intros t w Ht.
  - now exists t, w.
  - cbn [fold_left].
    assert (E : step api ([t], w) i = ([t], w) \/
                step api ([t], w) i
                = ([fst (advance api t w)], snd (advance api t w))).
    { unfold step. cbn [fst snd].
      assert (A : advance_at api i [t] w = ([t], w) \/
                  advance_at api i [t] w
                  = ([fst (advance api t w)], snd (advance api t w))).
      { destruct i as [|i]; cbn [advance_at].
        - right. now destruct (advance api t w).
        - left. now destruct i. }
      destruct (nth_error [t] i) as [[]|]; try exact A.
      destruct (can_start i [t]); [exact A | now left]. }
    destruct E as [E|E]; rewrite E.
    + now apply IH.
    + destruct (IH (fst (advance api t w)) (snd (advance api t w))
                  (advance_live api t w Ht)) as (t' & w' & Hrun & Hl & Hc).
      exists t', w'. split; [exact Hrun|]. split; [exact Hl|].
      now rewrite Hc, advance_complete.
Qed.

Lemma single_task_drain api t w :
  live t = true ->
  (let st := finish_started api [t] w in sweep api false (fst st) (snd st))
  = ([fst (complete api t w)], snd (complete api t w)).
Proof.
  intros Ht. destruct (complete_finished api t w Ht) as [r Hr].
  destruct t as [job|id|id v|r0|]; try discriminate Ht;
    cbn [finish_started sweep fst snd];
    destruct (complete api _ w) as [t' w1]; cbn [fst snd] in *; subst t';
    reflexivity.
Qed.

(** X25: with a single job, whatever the order of the steps,
    [parallel_job_search] is one call of [fetch_job_data]: it returns the
    detail in a list, or raises what the call raises, and leaves the world
    that the call leaves. *)
Theorem single_job_is_fetch_job_data
  (schedule : list nat) (api : Linkedin) (job : value) (w : World) :
  parallel_job_search schedule api [job] w
  = (rbind (fst (fetch_job_data api job w)) (fun d => Ok [d]),
     snd (fetch_job_data api job w)).
Proof.
  unfold parallel_job_search, executor_map, pool. cbn [map].
  destruct (single_task_run api schedule (Queued job) w eq_refl)
    as (t' & w' & Hrun & Hl & Hc).
  rewrite Hrun. cbn [fst snd].
  pose proof (single_task_drain api t' w' Hl) as Hd. cbv zeta in Hd.
  rewrite Hd, Hc, complete_fetch_job_data. cbn [fst snd collect].
  now destruct (fst (fetch_job_data api job w)).
Qed.


(** ** [main] *)

Lemma table_grows_refl w : table_grows w w.
Proof.
  split; [|auto]. exists []. now rewrite app_nil_r.
Qed.

Lemma table_grows_trans w1 w2 w3 :
  table_grows w1 w2 -> table_grows w2 w3 -> table_grows w1 w3.
Proof.
  intros ((a1 & E1 & F1) & S1 & K1) ((a2 & E2 & F2) & S2 & K2).
  split; [|split; auto].
  exists (a1 ++ a2). rewrite E2, E1, app_assoc. split; [reflexivity|].
  intros H. rewrite forallb_app, F1, F2; auto.
Qed.

Lemma job_search_table_grows lim schedule api jobs model w :
  table_grows w (snd (job_search lim schedule api jobs model 1 w)).
Proof.
  destruct (job_search_table lim schedule api jobs model 1 w)
    as ((a & E & F) & S & K).
  split; [|split; assumption]. exists a. split; [exact E|]. exact F.
Qed.

(** One keyword of [main]: what it does in every outcome. *)
Lemma search_keyword_effects lim svc api model kw p :
  searches (snd (search_keyword lim svc api model kw p))
    = query_for kw :: searches p /\
  notices (snd (search_keyword lim svc api model kw p))
    = SearchingJobsFor kw :: notices p /\
  logins (snd (search_keyword lim svc api model kw p)) = logins p /\
  closed (snd (search_keyword lim svc api model kw p)) = closed p /\
  table_grows (world p) (world (snd (search_keyword lim svc api model kw p))).
Proof.
  unfold search_keyword, pbind, notify, call_search_jobs, in_world.
  cbn [world notices logins searches closed].
  fold (query_for kw).
  destruct (search_jobs svc (searches p) (query_for kw)) as [jobs|x].
  - pose proof (job_search_table_grows lim
                  (workers svc (query_for kw :: searches p)) api jobs model
                  (world p)) as G.
    destruct (job_search lim (workers svc (query_for kw :: searches p)) api
                jobs model 1 (world p)) as [r w'].
    cbn in *. auto.
  - cbn. repeat split; auto. apply table_grows_refl.
Qed.

Lemma pfor_search_effects lim svc api model kws : forall p,
  (fst (pfor kws (search_keyword lim svc api model) p) = Ok tt ->
   searches (snd (pfor kws (search_keyword lim svc api model) p))
     = rev (map query_for kws) ++ searches p /\
   notices (snd (pfor kws (search_keyword lim svc api model) p))
     = rev (map SearchingJobsFor kws) ++ notices p) /\
  logins (snd (pfor kws (search_keyword lim svc api model) p)) = logins p /\
  closed (snd (pfor kws (search_keyword lim svc api model) p)) = closed p /\
  table_grows (world p)
    (world (snd (pfor kws (search_keyword lim svc api model) p))).
Proof.
  induction kws as [|kw kws IH]; intros p.
  - cbn. repeat split; auto. apply table_grows_refl.
  - cbn [pfor]. unfold pbind.
    destruct (search_keyword_effects lim svc api model kw p)
      as (S1 & N1 & L1 & C1 & G1).
    destruct (search_keyword lim svc api model kw p) as [[[]|x] p1];
      cbn [fst snd] in *.
    + destruct (IH p1) as (O2 & L2 & C2 & G2).
      split; [|split; [congruence | split; [congruence|]]].
      * intros H. destruct (O2 H) as [S2 N2]. rewrite S2, N2, S1, N1.
        cbn [map rev]. now rewrite <- !app_assoc.
      * eapply table_grows_trans; eauto.
    + split; [discriminate | auto].
Qed.

(** X20: when the database cannot be reached (the connection attempt
    raises a connector error, or the handle is not connected), [main]
    prints that the connection failed and returns: it never logs in,
    searches, fetches or asks the model, and the store is untouched. *)
Theorem main_without_database
  (lim : nat) (env : Settings) (svc : Services) (p : Process) :
  connect svc (DB_HOST env) (DB_USER env) (DB_PASSWORD env) (DB_NAME env)
    = Ok false \/
  (exists e,
      connect svc (DB_HOST env) (DB_USER env) (DB_PASSWORD env) (DB_NAME env)
        = Raise e /\ is_mysql_Error e = true) ->
  fst (main lim env svc p) = Ok tt /\
  world (snd (main lim env svc p)) = world p /\
  logins (snd (main lim env svc p)) = logins p /\
  searches (snd (main lim env svc p)) = searches p /\
  closed (snd (main lim env svc p)) = closed p /\
  hd_error (notices (snd (main lim env svc p))) = Some ConnectionFailed.
Proof.
  unfold main, pbind, connect_to_database.
  intros [H | (e & H & He)]; rewrite H.
  - cbn. auto 10.
  - rewrite He. cbn. auto 10.
Qed.

Lemma main_without_database_witness :
  fst (main default_max_str_digits no_settings offline_services fresh_process)
    = Ok tt /\
  world (snd (main default_max_str_digits no_settings offline_services
                fresh_process)) = empty_world.
Proof.
  destruct (main_without_database default_max_str_digits no_settings
              offline_services fresh_process) as (H1 & H2 & _).
  - right. exists MysqlError. split; reflexivity.
  - split; [exact H1 | exact H2].
Defined.

(** X21: when [main] runs to its end with a database connection, it has
    logged in once, searched the three keywords "Software Engineer",
    "Backend" and "Cloud Engineer" in that order, each in the United
    States, for full-time postings of the last 86400 seconds, closed the
    connection and printed its final line. *)
Theorem main_completed
  (lim : nat) (env : Settings) (svc : Services) (p : Process) :
  connect svc (DB_HOST env) (DB_USER env) (DB_PASSWORD env) (DB_NAME env)
    = Ok true ->
  fst (main lim env svc p) = Ok tt ->
  searches (snd (main lim env svc p))
    = [query_for "Cloud Engineer"; query_for "Backend";
       query_for "Software Engineer"] ++ searches p /\
  notices (snd (main lim env svc p))
    = [SearchCompleted; SearchingJobsFor "Cloud Engineer";
       SearchingJobsFor "Backend"; SearchingJobsFor "Software Engineer";
       SuccessfullyConnected] ++ notices p /\
  logins (snd (main lim env svc p)) = S (logins p) /\
  closed (snd (main lim env svc p)) = true.
Proof.
  unfold main, connect_to_database, call_login, close, notify, pret, pbind.
  intros ->. cbv beta iota.
  destruct (login svc (LINKEDIN_USERNAME env) (LINKEDIN_PASSWORD env))
    as [api|x]; [|discriminate].
  destruct (configure_genai svc (GENAI_API_KEY env)) as [model|x];
    [|discriminate].
  match goal with
  | |- context [pfor main_keywords ?b ?q] =>
      destruct (pfor_search_effects lim svc api model main_keywords q)
        as (Hok & Hl & Hc & _);
      destruct (pfor main_keywords b q) as [[[]|x] p1]; [|discriminate]
  end.
  cbn [fst snd] in *. destruct (Hok eq_refl) as [Hs Hn].
  cbn in Hs, Hn, Hl. intros _. cbn. rewrite Hs, Hn, Hl. auto.
Qed.

Lemma main_completed_witness :
  searches (snd (main default_max_str_digits no_settings sample_services
                   fresh_process))
  = [query_for "Cloud Engineer"; query_for "Backend";
     query_for "Software Engineer"] ++ searches fresh_process.
Proof.
  apply (main_completed default_max_str_digits no_settings sample_services
           fresh_process); reflexivity.
Defined.

(** X22: an exception that leaves [main] (from the login, the model's
    configuration, a search, a fetch or an interrupted estimate) leaves
    the database connection open: [connection.close()] has not been
    called. *)
Theorem main_raises_before_close
  (lim : nat) (env : Settings) (svc : Services) (p : Process) (e : exn) :
  fst (main lim env svc p) = Raise e ->
  closed (snd (main lim env svc p)) = closed p.
Proof.
  unfold main, connect_to_database, call_login, close, notify, pret, pbind.
  destruct (connect svc (DB_HOST env) (DB_USER env) (DB_PASSWORD env)
              (DB_NAME env)) as [[|]|x]; cbv beta iota.
  - destruct (login svc (LINKEDIN_USERNAME env) (LINKEDIN_PASSWORD env))
      as [api|x]; [|reflexivity].
    destruct (configure_genai svc (GENAI_API_KEY env)) as [model|x];
      [|reflexivity].
    match goal with
    | |- context [pfor main_keywords ?b ?q] =>
        destruct (pfor_search_effects lim svc api model main_keywords q)
          as (_ & _ & Hc & _);
        destruct (pfor main_keywords b q) as [[[]|x] p1]; [discriminate|]
    end.
    intros _. exact Hc.
  - discriminate.
  - destruct (is_mysql_Error x); [discriminate | reflexivity].
Qed.

Lemma main_raises_before_close_witness :
  closed (snd (main default_max_str_digits no_settings throttled_services
                 fresh_process)) = false.
Proof.
  apply (main_raises_before_close default_max_str_digits no_settings
           throttled_services fresh_process (ProviderError "HTTP 429")).
  reflexivity.
Defined.

Lemma distinct_app_l l1 : forall l2,
  distinct (l1 ++ l2) = true -> distinct l1 = true.
Proof.
  induction l1 as [|a l1 IH]; intros l2 H; [reflexivity|].
  cbn [app distinct] in *. apply andb_true_iff in H as [Ha H].
  apply andb_true_iff. split; [|now apply (IH l2)].
  apply negb_true_iff. apply negb_true_iff in Ha.
  rewrite existsb_app in Ha. now apply orb_false_iff in Ha as [Ha _].
Qed.

Lemma main_table_grows lim env svc p :
  table_grows (world p) (world (snd (main lim env svc p))).
Proof.
  unfold main, connect_to_database, call_login, close, notify, pret, pbind.
  destruct (connect svc (DB_HOST env) (DB_USER env) (DB_PASSWORD env)
              (DB_NAME env)) as [[|]|x]; cbv beta iota.
  - destruct (login svc (LINKEDIN_USERNAME env) (LINKEDIN_PASSWORD env))
      as [api|x]; [|apply table_grows_refl].
    destruct (configure_genai svc (GENAI_API_KEY env)) as [model|x];
      [|apply table_grows_refl].
    match goal with
    | |- context [pfor main_keywords ?b ?q] =>
        destruct (pfor_search_effects lim svc api model main_keywords q)
          as (_ & _ & _ & G);
        destruct (pfor main_keywords b q) as [[[]|x] p1]
    end; cbn [fst snd world] in *; [|exact G].
    eapply table_grows_trans; [exact G|].
    split; [|split].
    + exists []. cbn. now rewrite app_nil_r.
    + reflexivity.
    + unfold key_ok. cbn. rewrite !app_nil_r, map_app. apply distinct_app_l.
  - apply table_grows_refl.
  - destruct (is_mysql_Error x); apply table_grows_refl.
Qed.

(** X23: whatever happens during a run of [main] that starts without an
    open transaction, the rows already in the table are kept, every row
    added has an experience of at most 1 and the job type 1, and if no
    two rows shared an Id before, none do after. *)
Theorem main_adds_entry_level_rows
  (lim : nat) (env : Settings) (svc : Services) (p : Process) :
  staged (store (world p)) = [] ->
  exists added,
    committed (store (world (snd (main lim env svc p))))
    = committed (store (world p)) ++ added /\
    forallb entry_level added = true /\
    (key_ok (store (world p)) [] = true ->
     key_ok (store (world (snd (main lim env svc p)))) [] = true).
Proof.
  intros H.
  destruct (main_table_grows lim env svc p) as ((added & E & F) & _ & K).
  exists added. auto.
Qed.

Lemma main_adds_entry_level_rows_witness :
  exists added,
    committed (store (world (snd (main default_max_str_digits no_settings
                                    sample_services fresh_process))))
    = committed (store (world fresh_process)) ++ added /\
    forallb entry_level added = true /\
    (key_ok (store (world fresh_process)) [] = true ->
     key_ok (store (world (snd (main default_max_str_digits no_settings
                                  sample_services fresh_process)))) []
     = true).
Proof.
  apply (main_adds_entry_level_rows default_max_str_digits no_settings
           sample_services fresh_process).
  reflexivity.
Defined.
